(** * UCC optimisation passes: SeqHT, QHRF and the IonQ gate-set pass

    A shallow embedding of [ucc/transpilers/seqht_pass.py],
    [ucc/transpilers/qhrf_pass.py] and [ucc/transpilers/ionq_pass.py].

    Angles, thresholds and scores are Python floats, i.e. IEEE 754 binary64
    numbers, and are modelled by Rocq's primitive floats.  A circuit is the
    list of its instructions together with its two bit counts; a qubit is
    its index in the circuit ([circuit.find_bit(q).index]).  Python
    exceptions raised by the passes themselves ([IndexError] on
    [params[0]] or [qubits[0]], [ValueError] on tuple unpacking) are
    modelled by [None] in the option monad. *)

From Stdlib Require Import Floats ZArith.
From stdpp Require Import base option list gmap strings.

#[local] Set Warnings "-inexact-float,-clear-no-such-hyp".
#[local] Open Scope string_scope.
#[local] Open Scope list_scope.

(** ** The circuit representation *)

Module Qiskit.

(** A gate object: its [name] and its [params]. *)
Record Instruction := mkInstruction {
  name : string;
  params : list float
}.

(** One entry of [circuit.data]. *)
Record CircuitInstruction := mkCI {
  operation : Instruction;
  qubits : list nat;
  clbits : list nat
}.

Record QuantumCircuit := mkQC {
  num_qubits : nat;
  num_clbits : nat;
  data : list CircuitInstruction
}.

(** [QuantumCircuit(n, m)]: a circuit without instructions. *)
Definition new_circuit (n m : nat) : QuantumCircuit := mkQC n m [].

(** [circuit.append(instruction, qargs, cargs)]. *)
Definition append (c : QuantumCircuit) (i : Instruction)
    (qargs cargs : list nat) : QuantumCircuit :=
  mkQC (num_qubits c) (num_clbits c) (data c ++ [mkCI i qargs cargs]).

(** [np.pi], the binary64 number nearest to the mathematical constant. *)
Definition np_pi : float := 0x1.921fb54442d18p+1%float.

Definition RXGate (theta : float) : Instruction := mkInstruction "rx" [theta].
Definition RYGate (theta : float) : Instruction := mkInstruction "ry" [theta].
Definition RZGate (theta : float) : Instruction := mkInstruction "rz" [theta].
Definition RXXGate (theta : float) : Instruction := mkInstruction "rxx" [theta].

(** [circuit.rx(angle, q)] and its siblings. *)
Definition rx (c : QuantumCircuit) (angle : float) (q : nat) : QuantumCircuit :=
  append c (RXGate angle) [q] [].
Definition ry (c : QuantumCircuit) (angle : float) (q : nat) : QuantumCircuit :=
  append c (RYGate angle) [q] [].
Definition rz (c : QuantumCircuit) (angle : float) (q : nat) : QuantumCircuit :=
  append c (RZGate angle) [q] [].

End Qiskit.
Export Qiskit.

(** [name in [...]] on gate names. *)
Definition name_in (n : string) (l : list string) : bool :=
  bool_decide (n ∈ l).

(** [x > y] and [x < y] on floats; both are false when an operand is NaN. *)
Definition fgt (x y : float) : bool := PrimFloat.ltb y x.
Definition flt (x y : float) : bool := PrimFloat.ltb x y.

(** ** SeqHT: sequency hierarchy truncation *)

Module SeqHTPass.

(** The dictionaries the pass builds: [{'gate', 'qubit', 'index'}] during
    extraction and [{'gate', 'type'}] during reconstruction. *)
Inductive op_dict :=
  | OpInfo (gate : Instruction) (qubit : nat) (index : nat)
  | OptOp (gate : Instruction) (type : string).

(** [op['gate']] *)
Definition get_gate (o : op_dict) : Instruction :=
  match o with
  | OpInfo g _ _ => g
  | OptOp g _ => g
  end.

Definition recognized : list string :=
  ["rx"; "ry"; "rz"; "u3"; "h"; "x"; "y"; "z"; "s"; "t"].

(** The test of [_extract_single_qubit_operations]: one qubit, equal to
    [qubit_idx], no classical bits, and a recognised name. *)
Definition is_target (qubit_idx : nat) (ci : CircuitInstruction) : bool :=
  match qubits ci with
  | [q] => Nat.eqb q qubit_idx
  | _ => false
  end
  && Nat.eqb (length (clbits ci)) 0
  && name_in (name (operation ci)) recognized.

Definition _extract_single_qubit_operations (circuit : QuantumCircuit)
    (qubit_idx : nat) : list op_dict :=
  fold_left
    (fun operations ci =>
       if is_target qubit_idx ci
       then operations ++ [OpInfo (operation ci) qubit_idx (length operations)]
       else operations)
    (data circuit) [].

(** A row of the coefficient table: the RX, RY and RZ components. *)
Definition row : Type := float * float * float.

(** [coeffs[0, k] += v] for [k] in 0..2 *)
Definition add_at (k : nat) (v : float) (coeffs : list row) : list row :=
  match coeffs with
  | (a, b, c) :: rest =>
      match k with
      | 0 => ((a + v)%float, b, c) :: rest
      | 1 => (a, (b + v)%float, c) :: rest
      | _ => (a, b, (c + v)%float) :: rest
      end
  | [] => []
  end.

Section Pass.

(** The two attributes of a pass instance. *)
Variable truncation_threshold : float.
Variable max_order : nat.

Definition coefficient_step (coeffs : list row) (op : op_dict) : list row :=
  let gate := get_gate op in
  match params gate with
  | [] => coeffs
  | p0 :: ps =>
      if String.eqb (name gate) "rx" then add_at 0 p0 coeffs
      else if String.eqb (name gate) "ry" then add_at 1 p0 coeffs
      else if String.eqb (name gate) "rz" then add_at 2 p0 coeffs
      else if String.eqb (name gate) "u3" then
        match ps with
        | p1 :: p2 :: _ => add_at 2 p2 (add_at 1 p0 (add_at 2 p1 coeffs))
        | _ => coeffs
        end
      else coeffs
  end.

Definition _compute_sequency_coefficients (operations : list op_dict)
    : list row :=
  fold_left coefficient_step operations
    (replicate (max_order + 1) (0, 0, 0)%float).

Definition truncate1 (x : float) : float :=
  if flt (abs x) truncation_threshold then 0%float else x.

Definition _truncate_sequency_hierarchy (coeffs : list row) : list row :=
  map (fun '(a, b, c) => (truncate1 a, truncate1 b, truncate1 c)) coeffs.

Definition _reconstruct_from_sequency (coeffs : list row)
    (num_operations : nat) : list op_dict :=
  match coeffs with
  | (rx_angle, ry_angle, rz_angle) :: _ =>
      (if fgt (abs rx_angle) truncation_threshold
       then [OptOp (RXGate rx_angle) "rx"] else [])
      ++ (if fgt (abs ry_angle) truncation_threshold
          then [OptOp (RYGate ry_angle) "ry"] else [])
      ++ (if fgt (abs rz_angle) truncation_threshold
          then [OptOp (RZGate rz_angle) "rz"] else [])
  | [] => []
  end.

Definition _optimize_single_qubit_sequence (operations : list op_dict)
    : list op_dict :=
  if Nat.ltb (length operations) 2 then operations
  else
    let sequency_coeffs := _compute_sequency_coefficients operations in
    let significant_coeffs := _truncate_sequency_hierarchy sequency_coeffs in
    _reconstruct_from_sequency significant_coeffs (length operations).

(** The condition [should_replace] of [_replace_operations]. *)
Definition should_replace (qubit_idx : nat) (original_ops : list op_dict)
    (op_idx : nat) (ci : CircuitInstruction) : bool :=
  Nat.ltb 0 (length original_ops)
  && match original_ops !! op_idx with
     | Some orig =>
         Nat.eqb (length (qubits ci)) 1
         && match qubits ci with
            | q :: _ => Nat.eqb q qubit_idx
            | [] => false
            end
         && String.eqb (name (operation ci)) (name (get_gate orig))
     | None => false
     end.

(** One turn of the copying loop: the new circuit and [op_idx]. *)
Definition replace_step (qubit_idx : nat)
    (original_ops optimized_ops : list op_dict)
    (st : QuantumCircuit * nat) (ci : CircuitInstruction)
    : QuantumCircuit * nat :=
  let '(new_circuit, op_idx) := st in
  let sr := should_replace qubit_idx original_ops op_idx ci in
  match (if sr then optimized_ops !! op_idx else None) with
  | Some opt_op =>
      (append new_circuit (get_gate opt_op) [qubit_idx] [], S op_idx)
  | None =>
      (append new_circuit (operation ci) (qubits ci) (clbits ci),
       if sr then S op_idx else op_idx)
  end.

Definition _replace_operations (circuit : QuantumCircuit) (qubit_idx : nat)
    (original_ops optimized_ops : list op_dict) : QuantumCircuit :=
  fst (fold_left (replace_step qubit_idx original_ops optimized_ops)
         (data circuit)
         (new_circuit (num_qubits circuit) (num_clbits circuit), 0)).

(** The body of the loop over [range(circuit.num_qubits)];
    extraction always reads the input [circuit]. *)
Definition seqht_step (circuit : QuantumCircuit)
    (optimized_circuit : QuantumCircuit) (qubit_idx : nat) : QuantumCircuit :=
  let single_qubit_ops := _extract_single_qubit_operations circuit qubit_idx in
  if Nat.ltb 1 (length single_qubit_ops) then
    let optimized_ops := _optimize_single_qubit_sequence single_qubit_ops in
    _replace_operations optimized_circuit qubit_idx single_qubit_ops
      optimized_ops
  else optimized_circuit.

Definition _apply_seqht_optimization (circuit : QuantumCircuit)
    : QuantumCircuit :=
  fold_left (seqht_step circuit) (seq 0 (num_qubits circuit)) circuit.

(** [run]: the conversions between DAG and circuit keep the instruction
    list, so the pass is its circuit transformation. *)
Definition run (dag : QuantumCircuit) : QuantumCircuit :=
  _apply_seqht_optimization dag.

End Pass.

End SeqHTPass.


(** ** QHRF: hierarchical recursive filtering *)

(** Leibniz equality of binary64 numbers is decidable. *)
#[global] Instance float_eq_dec : EqDecision float.
Proof.
  intros x y. destruct (PrimFloat.Leibniz.eqb x y) eqn:E.
  - left. by apply FloatAxioms.Leibniz.eqb_spec.
  - right. intros H. apply FloatAxioms.Leibniz.eqb_spec in H. congruence.
Defined.

#[global] Instance Instruction_eq_dec : EqDecision Instruction.
Proof. solve_decision. Defined.

(** The conversion of a Python integer [n >= 0] to a float, as in
    [1.0 / n]: the nearest binary64. *)
Definition float_of_nat (n : nat) : float :=
  SF2Prim (binary_normalize prec emax (Z.of_nat n) 0 false).

(** [min(a, b)] on two floats: [b] when [b < a], else [a]. *)
Definition py_min (a b : float) : float := if flt b a then b else a.

Module QHRFPass.

(** An entry of a layer: [{'gate', 'qubits', 'index'}]. *)
Record op := mkOp {
  gate : Instruction;
  qubits : list nat;
  index : nat
}.

#[global] Instance op_eq_dec : EqDecision op.
Proof. solve_decision. Defined.

(** The hierarchy dictionary; its ['connections'] entry is created empty
    and never read or written again, and is left out. *)
Record hierarchy := mkHierarchy {
  h_qubits : nat;
  layers : list (list op)
}.

(** The layering loop of [_build_hierarchy]; its state is
    [hierarchy['layers']], [current_layer] and [active_qubits]. *)
Definition build_step (st : list (list op) * list op * gset nat)
    (instruction_data : CircuitInstruction)
    : list (list op) * list op * gset nat :=
  let '(layers, current_layer, active_qubits) := st in
  let 'mkCI instruction qargs cargs := instruction_data in
  let qubit_indices := qargs in
  let '(layers, current_layer, active_qubits) :=
    if existsb (fun idx => bool_decide (idx ∈ active_qubits)) qubit_indices
    then (match current_layer with
          | [] => layers
          | _ => layers ++ [current_layer]
          end, [], ∅)
    else (layers, current_layer, active_qubits) in
  (layers,
   current_layer
     ++ [mkOp instruction qubit_indices
           (length layers * 100 + length current_layer)],
   active_qubits ∪ list_to_set qubit_indices).

Definition _build_hierarchy (circuit : QuantumCircuit) : hierarchy :=
  let '(layers, current_layer, _) :=
    fold_left build_step (data circuit) ([], [], ∅) in
  mkHierarchy (num_qubits circuit)
    match current_layer with
    | [] => layers
    | _ => layers ++ [current_layer]
    end.

(** [set(a) == set(b)] on two lists of qubit indices. *)
Definition set_eqb (a b : list nat) : bool :=
  bool_decide ((list_to_set a : gset nat) = list_to_set b).

(** [op != operation] on two layer entries.  The entries of one layer
    carry pairwise different ['index'] values, so two of them are equal
    only when they are the same entry. *)
Definition op_neqb (a b : op) : bool := bool_decide (a ≠ b).

Definition _calculate_operation_contribution (operation : op)
    (layer : list op) : float :=
  let gate_ := gate operation in
  let qubits_ := qubits operation in
  let base_contribution :=
    if name_in (name gate_) ["h"; "x"; "y"; "z"] then 1.0%float
    else if name_in (name gate_) ["rx"; "ry"; "rz"] then
      match params gate_ with
      | p0 :: _ => let angle := abs p0 in py_min (angle / np_pi) 1.0
      | [] => 0.5%float
      end
    else if name_in (name gate_) ["cx"; "cz"; "swap"] then 1.5%float
    else 0.8%float in
  let similar_ops :=
    length (List.filter
              (fun o => op_neqb o operation
                        && set_eqb (qubits o) qubits_
                        && String.eqb (name (gate o)) (name gate_))
              layer) in
  if Nat.ltb 0 similar_ops
  then (base_contribution * (1.0 / float_of_nat (similar_ops + 1)))%float
  else base_contribution.

(** [if a & b:] on two sets: the intersection is not empty. *)
Definition overlaps (a b : gset nat) : bool := bool_decide (a ∩ b ≠ ∅).

(** The positions of the groups of [groups] that overlap [g]. *)
Definition overlapping_indices (g : gset nat) (groups : list (gset nat))
    : list nat :=
  omap (fun '(i, existing) => if overlaps g existing then Some i else None)
       (imap pair groups).

(** One turn of the loop that merges overlapping groups. *)
Definition merge_step (merged_groups : list (gset nat)) (group : gset nat)
    : list (gset nat) :=
  match overlapping_indices group merged_groups with
  | [] => merged_groups ++ [group]
  | first :: others =>
      fold_left
        (fun mg i =>
           match mg !! i with
           | Some gi => delete i (alter (fun g => g ∪ gi) first mg)
           | None => mg
           end)
        (reverse others)
        (alter (fun g => g ∪ group) first merged_groups)
  end.

Definition _breaks_connectivity (operation : op) (current_layer : list op)
    : bool :=
  match current_layer with
  | [] => true
  | _ =>
      let qubit_groups :=
        map (fun o => list_to_set (qubits o) : gset nat) current_layer in
      let merged_groups := fold_left merge_step qubit_groups [] in
      let op_qubits : gset nat := list_to_set (qubits operation) in
      let connected_groups := overlapping_indices op_qubits merged_groups in
      Nat.ltb 1 (length connected_groups)
  end.

(** [sorted(items, key=lambda x: x[1], reverse=True)]: the stable sort by
    decreasing contribution.  An item moves in front of the items it is
    strictly greater than only, so equal keys keep their original order.
    On keys that [<] orders totally, that is without NaN, this is the
    result of every stable sort. *)
Fixpoint insert_desc (x : nat * float) (l : list (nat * float))
    : list (nat * float) :=
  match l with
  | [] => [x]
  | y :: l' =>
      if flt (snd x) (snd y) then y :: insert_desc x l' else x :: y :: l'
  end.

Definition sorted_reverse (items : list (nat * float)) : list (nat * float) :=
  foldr insert_desc [] items.

Section Pass.

(** The attributes of a pass instance; [hierarchy_depth] is stored and
    never read. *)
Variable hierarchy_depth : nat.
Variable redundancy_threshold : float.

Definition filter_step (layer filtered_layer : list op)
    (item : nat * float) : list op :=
  let '(idx, contribution) := item in
  match layer !! idx with
  | Some o =>
      if fgt contribution redundancy_threshold then filtered_layer ++ [o]
      else if negb (_breaks_connectivity o filtered_layer) then filtered_layer
      else filtered_layer ++ [o]
  | None => filtered_layer
  end.

Definition _filter_layer (layer : list op) : list op :=
  if Nat.leb (length layer) 1 then layer
  else
    let operation_contributions :=
      imap (fun i o => (i, _calculate_operation_contribution o layer)) layer in
    let sorted_ops := sorted_reverse operation_contributions in
    fold_left (filter_step layer) sorted_ops [].

Definition _apply_recursive_filtering (h : hierarchy) : hierarchy :=
  mkHierarchy (h_qubits h)
    (fold_left
       (fun filtered layer =>
          match _filter_layer layer with
          | [] => filtered
          | filtered_layer => filtered ++ [filtered_layer]
          end)
       (layers h) []).

Definition _reconstruct_from_hierarchy (h : hierarchy) (num_qubits : nat)
    : QuantumCircuit :=
  fold_left
    (fun circuit layer =>
       fold_left
         (fun circuit operation =>
            append circuit (gate operation) (qubits operation) [])
         layer circuit)
    (layers h) (new_circuit num_qubits 0).

Definition _apply_qhrf_optimization (circuit : QuantumCircuit)
    : QuantumCircuit :=
  let hierarchy := _build_hierarchy circuit in
  let filtered_hierarchy := _apply_recursive_filtering hierarchy in
  _reconstruct_from_hierarchy filtered_hierarchy (num_qubits circuit).

Definition run (dag : QuantumCircuit) : QuantumCircuit :=
  _apply_qhrf_optimization dag.

End Pass.

End QHRFPass.

(** ** The IonQ gate-set pass *)

Module IonQOptimizationPass.

(** A loop over [circuit.data] whose body may raise. *)
Definition for_each {S A : Type} (body : S -> A -> option S) (l : list A)
    (init : S) : option S :=
  fold_left (fun st x => st ≫= fun s => body s x) l (Some init).

Definition gate_set_step (optimized_circuit : QuantumCircuit)
    (instruction_data : CircuitInstruction) : option QuantumCircuit :=
  let 'mkCI instruction qargs cargs := instruction_data in
  let gate_name := name instruction in
  let qubits := qargs in
  if String.eqb gate_name "h" then
    q0 ← head qubits;
    Some (rx (ry optimized_circuit (np_pi / 2) q0) np_pi q0)
  else if String.eqb gate_name "x" then
    q0 ← head qubits; Some (rx optimized_circuit np_pi q0)
  else if String.eqb gate_name "y" then
    q0 ← head qubits; Some (ry optimized_circuit np_pi q0)
  else if String.eqb gate_name "z" then
    q0 ← head qubits; Some (rz optimized_circuit np_pi q0)
  else if String.eqb gate_name "cx" then
    match qubits with
    | [control; target] =>
        Some (append
                (rx (rx optimized_circuit (- np_pi / 2) control)
                    (- np_pi / 2) target)
                (RXXGate (np_pi / 4)) [control; target] [])
    | _ => None
    end
  else if name_in gate_name ["rx"; "ry"; "rz"; "rxx"] then
    Some (append optimized_circuit instruction qubits [])
  else
    Some (append optimized_circuit instruction qubits []).

Definition _optimize_gate_set (circuit : QuantumCircuit)
    : option QuantumCircuit :=
  for_each gate_set_step (data circuit) (new_circuit (num_qubits circuit) 0).

Definition _optimize_rotation_sequence (rotations : list (string * float))
    : list (string * float) :=
  let '(rx_total, ry_total, rz_total) :=
    fold_left
      (fun '(rx_total, ry_total, rz_total) '(gate_name, angle) =>
         if String.eqb gate_name "rx"
         then ((rx_total + angle)%float, ry_total, rz_total)
         else if String.eqb gate_name "ry"
         then (rx_total, (ry_total + angle)%float, rz_total)
         else if String.eqb gate_name "rz"
         then (rx_total, ry_total, (rz_total + angle)%float)
         else (rx_total, ry_total, rz_total))
      rotations (0, 0, 0)%float in
  (if fgt (abs rx_total) 1e-10 then [("rx", rx_total)] else [])
  ++ (if fgt (abs ry_total) 1e-10 then [("ry", ry_total)] else [])
  ++ (if fgt (abs rz_total) 1e-10 then [("rz", rz_total)] else []).

(** [rotation_sequences]: a [defaultdict(list)], kept in insertion order
    of its keys. *)
Definition rotation_dict : Type := list (nat * list (string * float)).

(** [rotation_sequences[q].append(v)] *)
Fixpoint dict_append (d : rotation_dict) (q : nat) (v : string * float)
    : rotation_dict :=
  match d with
  | [] => [(q, [v])]
  | (k, l) :: d' =>
      if Nat.eqb k q then (k, l ++ [v]) :: d' else (k, l) :: dict_append d' q v
  end.

Definition emit_rotation (q_idx : nat) (optimized_circuit : QuantumCircuit)
    (rotation : string * float) : QuantumCircuit :=
  let '(gate_name, angle) := rotation in
  if String.eqb gate_name "rx" then rx optimized_circuit angle q_idx
  else if String.eqb gate_name "ry" then ry optimized_circuit angle q_idx
  else if String.eqb gate_name "rz" then rz optimized_circuit angle q_idx
  else optimized_circuit.

(** [for q_idx in rotation_sequences: ...]: emit the fused rotations of
    every qubit. *)
Definition flush (optimized_circuit : QuantumCircuit) (d : rotation_dict)
    : QuantumCircuit :=
  fold_left
    (fun oc '(q_idx, rotations) =>
       match rotations with
       | [] => oc
       | _ => fold_left (emit_rotation q_idx)
                (_optimize_rotation_sequence rotations) oc
       end)
    d optimized_circuit.

Definition is_rotation (ci : CircuitInstruction) : bool :=
  Nat.eqb (length (Qiskit.qubits ci)) 1
  && name_in (name (operation ci)) ["rx"; "ry"; "rz"].

Definition rotations_step (st : QuantumCircuit * rotation_dict)
    (instruction_data : CircuitInstruction)
    : option (QuantumCircuit * rotation_dict) :=
  let '(optimized_circuit, rotation_sequences) := st in
  let 'mkCI instruction qargs cargs := instruction_data in
  if is_rotation instruction_data then
    qubit_idx ← head qargs;
    angle ← head (params instruction);
    Some (optimized_circuit,
          dict_append rotation_sequences qubit_idx (name instruction, angle))
  else
    Some (append (flush optimized_circuit rotation_sequences)
            instruction qargs [], []).

Definition _optimize_rotations (circuit : QuantumCircuit)
    : option QuantumCircuit :=
  '(optimized_circuit, rotation_sequences) ←
    for_each rotations_step (data circuit)
      (new_circuit (num_qubits circuit) 0, []);
  Some (flush optimized_circuit rotation_sequences).

Definition _optimize_connectivity (circuit : QuantumCircuit)
    : QuantumCircuit := circuit.

Definition _apply_qiskit_optimization (circuit : QuantumCircuit)
    : option QuantumCircuit :=
  let optimized_circuit := circuit in
  optimized_circuit ← _optimize_gate_set optimized_circuit;
  optimized_circuit ← _optimize_rotations optimized_circuit;
  Some (_optimize_connectivity optimized_circuit).

Definition _apply_tket_optimization (circuit : QuantumCircuit)
    : option QuantumCircuit :=
  _apply_qiskit_optimization circuit.

(** [use_tket] is the attribute of the pass instance. *)
Definition run (use_tket : bool) (dag : QuantumCircuit)
    : option QuantumCircuit :=
  if use_tket then _apply_tket_optimization dag
  else _apply_qiskit_optimization dag.

End IonQOptimizationPass.

(** ** Circuits of the scenarios *)

Module Scenarios.

(** rx(0.001), ry(pi/2), rz(0.0005) on one qubit. *)
Definition three_rotations : QuantumCircuit :=
  mkQC 1 0 [mkCI (RXGate 0.001) [0] [];
            mkCI (RYGate (np_pi / 2)) [0] [];
            mkCI (RZGate 0.0005) [0] []].

Definition two_small : QuantumCircuit :=
  mkQC 1 0 [mkCI (RXGate 0.001) [0] []; mkCI (RXGate 0.001) [0] []].

Definition four_rx : QuantumCircuit :=
  mkQC 1 0 [mkCI (RXGate 1) [0] []; mkCI (RXGate 1) [0] [];
            mkCI (RXGate 1) [0] []; mkCI (RXGate 1) [0] []].

(** A Hadamard gate beside a rotation by angle 0. *)
Definition zero_rotation : QuantumCircuit :=
  mkQC 2 0 [mkCI (mkInstruction "h" []) [0] []; mkCI (RXGate 0) [1] []].

(** The same Hadamard gate twice. *)
Definition h_twice : QuantumCircuit :=
  mkQC 1 0 [mkCI (mkInstruction "h" []) [0] [];
            mkCI (mkInstruction "h" []) [0] []].

Definition small_and_large : QuantumCircuit :=
  mkQC 3 0 [mkCI (RXGate 0.1) [0] []; mkCI (RYGate 1) [1] [];
            mkCI (RZGate 0.02) [2] []].

Definition three_small : QuantumCircuit :=
  mkQC 3 0 [mkCI (RXGate 0.1) [0] []; mkCI (RYGate 0.2) [1] [];
            mkCI (RZGate 0.2) [2] []].

(** The single layer of [three_small]. *)
Definition three_small_layer : list QHRFPass.op :=
  [QHRFPass.mkOp (RXGate 0.1) [0] 0; QHRFPass.mkOp (RYGate 0.2) [1] 1;
   QHRFPass.mkOp (RZGate 0.2) [2] 2].

Definition cx_gate : Instruction := mkInstruction "cx" [].

(** Two CNOTs on disjoint pairs of qubits. *)
Definition two_cx : QuantumCircuit :=
  mkQC 4 0 [mkCI cx_gate [0; 1] []; mkCI cx_gate [2; 3] []].

(** H(q0), CNOT(q0, q1). *)
Definition h_cx : QuantumCircuit :=
  mkQC 2 0 [mkCI (mkInstruction "h" []) [0] [];
            mkCI (mkInstruction "cx" []) [0; 1] []].

(** rx(pi/4) then rx(pi/8) on one qubit. *)
Definition two_rx : QuantumCircuit :=
  mkQC 1 0 [mkCI (RXGate (np_pi / 4)) [0] [];
            mkCI (RXGate (np_pi / 8)) [0] []].

(** The sequence of the per-gate rewrite table for [h_cx]. *)
Definition h_cx_rewritten : QuantumCircuit :=
  mkQC 2 0 [mkCI (RYGate (np_pi / 2)) [0] [];
            mkCI (RXGate np_pi) [0] [];
            mkCI (RXGate (- np_pi / 2)) [0] [];
            mkCI (RXGate (- np_pi / 2)) [1] [];
            mkCI (RXXGate (np_pi / 4)) [0; 1] []].

(** One qubit and one classical bit. *)
Definition with_clbit : QuantumCircuit :=
  mkQC 1 1 [mkCI (mkInstruction "h" []) [0] []].

End Scenarios.

(** ** The order of binary64 numbers *)

Module FloatOrder.

Lemma compare_cont_spec m1 m2 :
  CompareSpec (m1 = m2) (m1 < m2)%positive (m2 < m1)%positive
    (PosDef.Pos.compare_cont Eq m1 m2).
Proof. apply (Pos.compare_spec m1 m2). Qed.

Ltac order_cases :=
  repeat match goal with
  | |- context [Z.compare ?a ?b] =>
      destruct (Z.compare_spec a b); subst
  | H : context [Z.compare ?a ?b] |- _ =>
      destruct (Z.compare_spec a b); subst
  | |- context [PosDef.Pos.compare_cont Eq ?a ?b] =>
      destruct (compare_cont_spec a b); subst
  | H : context [PosDef.Pos.compare_cont Eq ?a ?b] |- _ =>
      destruct (compare_cont_spec a b); subst
  end; simpl in *; try discriminate; try lia; auto.

Lemma SFltb_asym a b : SFltb a b = true -> SFltb b a = false.
Proof.
  unfold SFltb.
  destruct a as [[]|[]| |[] m1 e1], b as [[]|[]| |[] m2 e2]; simpl;
    try discriminate; try reflexivity; intros H; order_cases.
Qed.

(** Away from NaN, [<] is the strict part of a total preorder. *)
Lemma SFltb_negtrans a b c :
  b <> S754_nan -> SFltb a c = true ->
  SFltb a b = true \/ SFltb b c = true.
Proof.
  unfold SFltb. intros Hb.
  destruct a as [[]|[]| |[] m1 e1], b as [[]|[]| |[] m2 e2],
    c as [[]|[]| |[] m3 e3]; simpl;
    try discriminate; try congruence; auto; intros H; order_cases.
Qed.

Lemma is_nan_false x : is_nan x = false -> Prim2SF x <> S754_nan.
Proof.
  unfold is_nan. rewrite FloatAxioms.eqb_spec. intros H E.
  rewrite E in H. discriminate.
Qed.

Lemma flt_asym x y : flt x y = true -> flt y x = false.
Proof. unfold flt. rewrite !FloatAxioms.ltb_spec. apply SFltb_asym. Qed.

Lemma flt_irrefl x : flt x x = false.
Proof.
  destruct (flt x x) eqn:E; [|done].
  by rewrite (flt_asym _ _ E) in E.
Qed.

Lemma flt_negtrans x y z :
  is_nan y = false -> flt x z = true -> flt x y = true \/ flt y z = true.
Proof.
  unfold flt. rewrite !FloatAxioms.ltb_spec. intros H.
  apply SFltb_negtrans. by apply is_nan_false.
Qed.

Lemma flt_not_nan_r x y : flt x y = true -> is_nan y = false.
Proof.
  unfold flt, is_nan. rewrite FloatAxioms.ltb_spec, FloatAxioms.eqb_spec.
  unfold SFltb, SFeqb.
  destruct (Prim2SF x) as [[]|[]| |[] ? ?], (Prim2SF y) as [[]|[]| |[] ? ?];
    simpl; try done;
    intros _; by rewrite Z.compare_refl, Pos.compare_cont_refl.
Qed.

Lemma flt_trans x y z : flt x y = true -> flt y z = true -> flt x z = true.
Proof.
  intros Hxy Hyz.
  destruct (flt_negtrans x z y (flt_not_nan_r _ _ Hyz) Hxy) as [H|H]; [done|].
  by rewrite (flt_asym _ _ Hyz) in H.
Qed.

(** Adding a number other than a zero or NaN to [0.0] returns it. *)
Lemma add_zero_l a : flt 0 (abs a) = true -> (0 + a)%float = a.
Proof.
  unfold flt. rewrite FloatAxioms.ltb_spec, FloatAxioms.abs_spec. intros H.
  apply Prim2SF_inj. rewrite FloatAxioms.add_spec.
  change (Prim2SF 0) with (S754_zero false) in *.
  destruct (Prim2SF a) as [[]|[]| |[] m e]; simpl in *; done.
Qed.

End FloatOrder.

(** ** Properties of SeqHT *)

Module SeqHTFacts.
Import SeqHTPass Scenarios.

Lemma mkCI_eta ci : mkCI (operation ci) (qubits ci) (clbits ci) = ci.
Proof. by destruct ci. Qed.

Lemma is_target_qubits q ci : is_target q ci = true -> qubits ci = [q].
Proof.
  unfold is_target. destruct (qubits ci) as [|a [|b l]]; simpl; try done.
  destruct (Nat.eqb_spec a q); simpl; [by subst | done].
Qed.

Lemma is_target_recognized q ci :
  is_target q ci = true -> name (operation ci) ∈ recognized.
Proof.
  unfold is_target, name_in. intros H.
  apply andb_prop in H as [_ H]. by apply bool_decide_eq_true_1 in H.
Qed.

(** The extracted run lists the gates of the target instructions, in
    program order. *)
Lemma extract_fold q d acc :
  map get_gate
    (fold_left
       (fun operations ci =>
          if is_target q ci
          then operations ++ [OpInfo (operation ci) q (length operations)]
          else operations) d acc)
  = map get_gate acc ++ map operation (List.filter (is_target q) d).
Proof.
  revert acc. induction d as [|ci d IH]; intros acc; simpl.
  - by rewrite app_nil_r.
  - rewrite IH. destruct (is_target q ci); simpl; [|done].
    by rewrite map_app, <- app_assoc.
Qed.

Lemma extract_gates c q :
  map get_gate (_extract_single_qubit_operations c q)
  = map operation (List.filter (is_target q) (data c)).
Proof. unfold _extract_single_qubit_operations. by rewrite extract_fold. Qed.

Lemma extract_length c q :
  length (_extract_single_qubit_operations c q)
  = length (List.filter (is_target q) (data c)).
Proof.
  rewrite <- (length_map get_gate), extract_gates. by rewrite length_map.
Qed.

(** What the copying loop computes when its matching stays in step with
    the run: the [k]-th target instruction is replaced by the [k]-th
    optimised gate when there is one, and kept otherwise. *)
Fixpoint substitute (q : nat) (opt : list op_dict) (k : nat)
    (d : list CircuitInstruction) : list CircuitInstruction :=
  match d with
  | [] => []
  | ci :: d' =>
      if is_target q ci then
        match opt !! k with
        | Some o => mkCI (get_gate o) [q] []
        | None => ci
        end :: substitute q opt (S k) d'
      else ci :: substitute q opt k d'
  end.

(** No single-qubit instruction on [q] with a recognised name carries
    classical bits: the run of [q] then holds every such instruction. *)
Definition run_complete (q : nat) (d : list CircuitInstruction) : Prop :=
  ∀ ci, ci ∈ d -> qubits ci = [q] ->
        name (operation ci) ∈ recognized -> clbits ci = [].

Lemma run_complete_cons q ci d :
  run_complete q (ci :: d) -> run_complete q d.
Proof. intros H x Hx. apply H. by right. Qed.

Lemma should_replace_target q orig k ci o :
  orig !! k = Some o -> get_gate o = operation ci ->
  is_target q ci = true -> should_replace q orig k ci = true.
Proof.
  intros Hk Hg Ht. unfold should_replace. rewrite Hk, Hg.
  rewrite (is_target_qubits _ _ Ht). simpl.
  rewrite Nat.eqb_refl, String.eqb_refl.
  destruct orig; [by rewrite lookup_nil in Hk | done].
Qed.

Lemma should_replace_other q orig k ci :
  (∀ o, orig !! k = Some o -> name (get_gate o) ∈ recognized) ->
  (qubits ci = [q] -> name (operation ci) ∈ recognized -> clbits ci = []) ->
  is_target q ci = false -> should_replace q orig k ci = false.
Proof.
  intros Hrec Hcl Ht. unfold should_replace.
  destruct (orig !! k) as [o|] eqn:Hk; [|by rewrite andb_false_r].
  specialize (Hrec o eq_refl).
  destruct (qubits ci) as [|a [|b l]] eqn:Hq; simpl;
    try by rewrite andb_false_r.
  destruct (Nat.eqb_spec a q) as [->|]; simpl; [|by rewrite andb_false_r].
  destruct (String.eqb_spec (name (operation ci)) (name (get_gate o)))
    as [Hn|]; [|by rewrite andb_false_r].
  exfalso. rewrite <- Hn in Hrec. specialize (Hcl eq_refl Hrec).
  unfold is_target in Ht. rewrite Hq, Hcl, Nat.eqb_refl in Ht. simpl in Ht.
  unfold name_in in Ht. by rewrite bool_decide_eq_true_2 in Ht.
Qed.

Lemma replace_fold q orig opt d : ∀ nc k,
  run_complete q d ->
  map get_gate (drop k orig) = map operation (List.filter (is_target q) d) ->
  fst (fold_left (replace_step q orig opt) d (nc, k))
  = mkQC (num_qubits nc) (num_clbits nc) (data nc ++ substitute q opt k d).
Proof.
  induction d as [|ci d IH]; intros nc k Hc Hm; simpl.
  - rewrite app_nil_r. by destruct nc.
  - destruct (is_target q ci) eqn:Ht.
    + simpl in Hm. rewrite Ht in Hm. simpl in Hm.
      destruct (drop k orig) as [|o rest] eqn:Hd; [done|].
      injection Hm as Hg Hm.
      assert (Hk : orig !! k = Some o).
      { rewrite <- (take_drop k orig) at 1. rewrite Hd.
        rewrite lookup_app_r by (rewrite length_take; lia).
        assert (k < length orig).
        { destruct (decide (k < length orig)); [done|].
          rewrite drop_ge in Hd by lia. done. }
        rewrite length_take, Nat.min_l by lia. by rewrite Nat.sub_diag. }
      rewrite (should_replace_target q orig k ci o Hk Hg Ht).
      assert (Hm' : map get_gate (drop (S k) orig)
                    = map operation (List.filter (is_target q) d)).
      { rewrite <- Hm. f_equal. rewrite <- (Nat.add_1_l k), Nat.add_comm.
        rewrite <- drop_drop, Hd. done. }
      destruct (opt !! k) as [o'|]; simpl.
      * rewrite IH; [|by eapply run_complete_cons|done]. simpl.
        by rewrite <- app_assoc.
      * rewrite IH; [|by eapply run_complete_cons|done]. simpl.
        by rewrite <- app_assoc, mkCI_eta.
    + simpl in Hm. rewrite Ht in Hm.
      rewrite should_replace_other; [| |by apply (Hc ci); left|done].
      * simpl. rewrite IH; [|by eapply run_complete_cons|done]. simpl.
        by rewrite <- app_assoc, mkCI_eta.
      * intros o Hk.
        assert (Hin : get_gate o ∈ map get_gate (drop k orig)).
        { apply list_elem_of_fmap. exists o. split; [done|].
          apply list_elem_of_lookup. exists 0.
          by rewrite lookup_drop, Nat.add_0_r. }
        rewrite Hm in Hin. apply list_elem_of_fmap in Hin as (cj & -> & Hj).
        apply list_elem_of_In in Hj. apply filter_In in Hj as [_ Hj].
        by eapply is_target_recognized.
Qed.


Lemma replace_operations_data c q orig opt :
  run_complete q (data c) ->
  map get_gate orig = map operation (List.filter (is_target q) (data c)) ->
  _replace_operations c q orig opt
  = mkQC (num_qubits c) (num_clbits c) (substitute q opt 0 (data c)).
Proof.
  intros Hc Hm. unfold _replace_operations. by rewrite replace_fold.
Qed.

(** Two instruction lists agree on qubit [q]: position by position, an
    instruction acting on [q] alone on either side is the same on both. *)
Definition agree_on (q : nat) (d d' : list CircuitInstruction) : Prop :=
  Forall2 (fun a b => qubits a = [q] ∨ qubits b = [q] -> a = b) d d'.

Lemma agree_on_refl q d : agree_on q d d.
Proof. induction d; constructor; auto. Qed.

Lemma agree_on_trans q d1 d2 d3 :
  agree_on q d1 d2 -> agree_on q d2 d3 -> agree_on q d1 d3.
Proof.
  intros H12. revert d3. induction H12 as [|a b d1 d2 Hab _ IH];
    intros d3 H23; inversion H23 as [|b' c d2' d3' Hbc H23']; subst;
    constructor; [|by apply IH].
  intros [Ha|Hc].
  - rewrite <- Hbc; rewrite <- Hab; auto.
  - rewrite Hab; rewrite Hbc; auto.
Qed.

Lemma agree_on_target q a b :
  (qubits a = [q] ∨ qubits b = [q] -> a = b) ->
  is_target q a = is_target q b.
Proof.
  intros H. destruct (is_target q a) eqn:Ha.
  - rewrite <- H, Ha; [done|]. left. by eapply is_target_qubits.
  - destruct (is_target q b) eqn:Hb; [|done].
    rewrite H, Hb in Ha; [done|]. right. by eapply is_target_qubits.
Qed.

Lemma agree_on_filter q d d' :
  agree_on q d d' ->
  List.filter (is_target q) d = List.filter (is_target q) d'.
Proof.
  induction 1 as [|a b d d' Hab _ IH]; simpl; [done|].
  rewrite <- (agree_on_target q a b Hab).
  destruct (is_target q a) eqn:Ha; [|done].
  rewrite IH, Hab; [done|]. left. by eapply is_target_qubits.
Qed.

Lemma agree_on_take q d d' i :
  agree_on q d d' -> agree_on q (take i d) (take i d').
Proof. apply Forall2_take. Qed.

Lemma agree_on_lookup q d d' i ci :
  agree_on q d d' -> d !! i = Some ci -> qubits ci = [q] ->
  d' !! i = Some ci.
Proof.
  intros H Hi Hq.
  destruct (Forall2_lookup_l _ _ _ _ _ H Hi) as (b & Hb & Hab).
  rewrite Hb, <- Hab; auto.
Qed.

Lemma agree_on_complete q d d' :
  agree_on q d d' -> run_complete q d -> run_complete q d'.
Proof.
  intros H Hc b Hb Hq. apply list_elem_of_lookup in Hb as [i Hi].
  destruct (Forall2_lookup_r _ _ _ _ _ H Hi) as (a & Ha & Hab).
  rewrite <- Hab in * by auto. apply Hc; [|done].
  apply list_elem_of_lookup. by exists i.
Qed.

(** The copying loop for qubit [q'] leaves every other qubit alone,
    whatever run it is given. *)
Lemma replace_fold_agree q q' orig opt d : ∀ nc k,
  q ≠ q' ->
  ∃ d', data (fst (fold_left (replace_step q' orig opt) d (nc, k)))
        = data nc ++ d' ∧ agree_on q d d'.
Proof.
  induction d as [|ci d IH]; intros nc k Hne; simpl.
  - exists []. rewrite app_nil_r. split; [done|constructor].
  - destruct (should_replace q' orig k ci) eqn:Hs.
    + assert (Hq : qubits ci = [q']).
      { unfold should_replace in Hs.
        destruct (orig !! k); [|by rewrite andb_false_r in Hs].
        destruct (qubits ci) as [|a [|b l]]; simpl in Hs;
          try by rewrite andb_false_r in Hs.
        destruct (Nat.eqb_spec a q'); [by subst|].
        by rewrite andb_false_r in Hs. }
      destruct (opt !! k) as [o|].
      * destruct (IH (append nc (get_gate o) [q'] []) (S k) Hne)
          as (d' & -> & Hd').
        eexists (_ :: d'). simpl. rewrite <- app_assoc. split; [done|].
        constructor; [|done]. rewrite Hq. simpl.
        intros [?|?]; congruence.
      * destruct (IH (append nc (operation ci) (qubits ci) (clbits ci))
                    (S k) Hne) as (d' & -> & Hd').
        exists (ci :: d'). simpl. rewrite <- app_assoc, mkCI_eta.
        split; [done|]. constructor; auto.
    + destruct (IH (append nc (operation ci) (qubits ci) (clbits ci))
                  k Hne) as (d' & -> & Hd').
      exists (ci :: d'). simpl. rewrite <- app_assoc, mkCI_eta.
      split; [done|]. constructor; auto.
Qed.

Lemma seqht_step_agree thr mo c oc q q' :
  q ≠ q' -> agree_on q (data oc) (data (seqht_step thr mo c oc q')).
Proof.
  intros Hne. unfold seqht_step.
  destruct (1 <? _)%nat; [|apply agree_on_refl].
  unfold _replace_operations.
  destruct (replace_fold_agree q q'
              (_extract_single_qubit_operations c q')
              (_optimize_single_qubit_sequence thr mo
                 (_extract_single_qubit_operations c q'))
              (data oc)
              (new_circuit (num_qubits oc) (num_clbits oc)) 0 Hne)
    as (d' & -> & Hd'). done.
Qed.

(** Running the loop over the qubits [qs] keeps every qubit outside
    [qs] as it was. *)
Lemma fold_agree thr mo c q qs : ∀ oc,
  q ∉ qs ->
  agree_on q (data oc) (data (fold_left (seqht_step thr mo c) qs oc)).
Proof.
  induction qs as [|q' qs IH]; intros oc Hq; simpl.
  - apply agree_on_refl.
  - apply not_elem_of_cons in Hq as [Hne Hq].
    eapply agree_on_trans; [by apply seqht_step_agree|by apply IH].
Qed.

Lemma substitute_lookup q opt d : ∀ k i ci,
  d !! i = Some ci ->
  substitute q opt k d !! i
  = Some (if is_target q ci
          then match opt !! (k + length (List.filter (is_target q)
                                           (take i d))) with
               | Some o => mkCI (get_gate o) [q] []
               | None => ci
               end
          else ci).
Proof.
  induction d as [|cj d IH]; intros k i ci Hi; [done|].
  destruct i as [|i]; simpl in *.
  - injection Hi as ->. rewrite Nat.add_0_r.
    by destruct (is_target q ci).
  - destruct (is_target q cj); simpl.
    + rewrite (IH _ _ _ Hi). by rewrite Nat.add_succ_r.
    + by rewrite (IH _ _ _ Hi).
Qed.


Lemma fold_counts thr mo c qs : ∀ oc,
  num_qubits (fold_left (seqht_step thr mo c) qs oc) = num_qubits oc
  ∧ num_clbits (fold_left (seqht_step thr mo c) qs oc) = num_clbits oc.
Proof.
  assert (Hfold : ∀ q orig opt d nc k,
    num_qubits (fst (fold_left (replace_step q orig opt) d (nc, k)))
      = num_qubits nc
    ∧ num_clbits (fst (fold_left (replace_step q orig opt) d (nc, k)))
      = num_clbits nc).
  { intros q orig opt d. induction d as [|ci d IH]; intros nc k; [done|].
    simpl. destruct (if should_replace q orig k ci then opt !! k else None);
      by rewrite !(proj1 (IH _ _)), !(proj2 (IH _ _)). }
  induction qs as [|q qs IH]; intros oc; [done|]. simpl.
  rewrite (proj1 (IH _)), (proj2 (IH _)). unfold seqht_step.
  destruct (1 <? _)%nat; [|done]. unfold _replace_operations.
  apply (Hfold _ _ _ _ (new_circuit _ _)).
Qed.

(** C10.  Surplus retention.  Let [q] be a qubit of the circuit whose
    extracted run has at least two operations and holds every
    recognised single-qubit instruction on [q].  An instruction of the run,
    of rank [k] in the run, is replaced in the output, at its own position,
    by the [k]-th operation of the reconstructed run when [k] is below the
    length [m] of that run, and is retained unchanged otherwise. *)
Theorem surplus_retention thr mo c q i ci :
  q < num_qubits c ->
  run_complete q (data c) ->
  2 <= length (_extract_single_qubit_operations c q) ->
  data c !! i = Some ci ->
  is_target q ci = true ->
  data (_apply_seqht_optimization thr mo c) !! i
  = Some match _optimize_single_qubit_sequence thr mo
                 (_extract_single_qubit_operations c q)
               !! length (List.filter (is_target q) (take i (data c))) with
         | Some o => mkCI (get_gate o) [q] []
         | None => ci
         end.
Proof.
  intros Hq Hc Hn Hi Ht. unfold _apply_seqht_optimization.
  replace (num_qubits c) with (q + S (num_qubits c - S q)) by lia.
  rewrite seq_app. simpl. rewrite fold_left_app. simpl.
  set (oc1 := fold_left (seqht_step thr mo c) (seq 0 q) c).
  assert (H1 : agree_on q (data c) (data oc1)).
  { apply fold_agree. rewrite list_elem_of_In, in_seq. lia. }
  set (ext := _extract_single_qubit_operations c q) in *.
  set (opt := _optimize_single_qubit_sequence thr mo ext).
  assert (H2 : seqht_step thr mo c oc1 q
               = mkQC (num_qubits oc1) (num_clbits oc1)
                   (substitute q opt 0 (data oc1))).
  { unfold seqht_step. fold ext. fold opt.
    replace (1 <? length ext)%nat with true
      by (symmetry; apply Nat.ltb_lt; lia).
    apply replace_operations_data; [by eapply agree_on_complete|].
    unfold ext. by rewrite extract_gates, (agree_on_filter _ _ _ H1). }
  rewrite H2.
  set (oc2 := mkQC _ _ _).
  pose proof (is_target_qubits _ _ Ht) as Hqs.
  eapply agree_on_lookup.
  - apply (fold_agree thr mo c q (seq (S q) (num_qubits c - S q)) oc2).
    rewrite list_elem_of_In, in_seq. lia.
  - simpl. rewrite (substitute_lookup q opt (data oc1) 0 i ci)
      by (by eapply agree_on_lookup).
    rewrite Ht. simpl.
    by rewrite (agree_on_filter _ _ _ (agree_on_take _ _ _ i H1)).
  - by destruct (opt !! _).
Qed.

Lemma surplus_retention_witness :
  data (_apply_seqht_optimization 0.1 3 three_rotations) !! 0
    = Some (mkCI (RYGate (np_pi / 2)) [0] [])
  ∧ data (_apply_seqht_optimization 0.1 3 three_rotations) !! 2
    = Some (mkCI (RZGate 0.0005) [0] []).
Proof.
  assert (Hc : run_complete 0 (data three_rotations)).
  { intros ci Hin _ _. simpl in Hin.
    repeat (apply elem_of_cons in Hin as [->|Hin]); try done.
    by apply elem_of_nil in Hin. }
  split.
  - exact (surplus_retention 0.1 3 three_rotations 0 0 _
             (le_n 1) Hc (le_S _ _ (le_n 2)) eq_refl eq_refl).
  - exact (surplus_retention 0.1 3 three_rotations 0 2 _
             (le_n 1) Hc (le_S _ _ (le_n 2)) eq_refl eq_refl).
Defined.


(** The copying loop emits one instruction per instruction read. *)
Lemma seqht_length thr mo c :
  length (data (_apply_seqht_optimization thr mo c)) = length (data c).
Proof.
  unfold _apply_seqht_optimization.
  pose proof (fold_agree thr mo c (num_qubits c) (seq 0 (num_qubits c)) c)
    as H.
  symmetry. eapply Forall2_length, H.
  rewrite list_elem_of_In, in_seq. lia.
Qed.

(** The truncator keeps both bit counts. *)
Lemma seqht_counts thr mo c :
  num_qubits (run thr mo c) = num_qubits c
  ∧ num_clbits (run thr mo c) = num_clbits c.
Proof. apply fold_counts. Qed.

(** C2.  On rx(0.001), ry(pi/2), rz(0.0005) with threshold 0.1 the
    reconstructed run is the single ry(pi/2), and it is written over the
    first instruction of the run only: the truncator returns ry(pi/2),
    ry(pi/2), rz(0.0005), three instructions and not one. *)
Theorem truncator_scenario :
  _optimize_single_qubit_sequence 0.1 3
    (_extract_single_qubit_operations three_rotations 0)
  = [OptOp (RYGate (np_pi / 2)) "ry"]
  ∧ run 0.1 3 three_rotations
    = mkQC 1 0 [mkCI (RYGate (np_pi / 2)) [0] [];
                mkCI (RYGate (np_pi / 2)) [0] [];
                mkCI (RZGate 0.0005) [0] []].
Proof. split; vm_compute; reflexivity. Qed.

(** C1.  The collapse does not happen.  A run of two rx(0.001) with
    threshold 0.1 has every coefficient below the threshold and an empty
    reconstruction, yet both instructions stay; a run of four rx(1) with
    threshold 0.01 leaves four instructions on the qubit. *)
Theorem truncator_no_collapse :
  _optimize_single_qubit_sequence 0.1 3
    (_extract_single_qubit_operations two_small 0) = []
  ∧ run 0.1 3 two_small = two_small
  ∧ run 0.01 3 four_rx
    = mkQC 1 0 [mkCI (RXGate 4) [0] []; mkCI (RXGate 1) [0] [];
                mkCI (RXGate 1) [0] []; mkCI (RXGate 1) [0] []].
Proof. repeat split; vm_compute; reflexivity. Qed.

End SeqHTFacts.

(** ** Properties of QHRF *)

Module QHRFFacts.
Import QHRFPass Scenarios.

(** The qubit set of a layer entry. *)
Definition qset (o : op) : gset nat := list_to_set (qubits o).

(** Entries at different positions of a layer act on disjoint qubits. *)
Definition qubit_disjoint (L : list op) : Prop :=
  ∀ i j a b, i ≠ j -> L !! i = Some a -> L !! j = Some b ->
             qset a ## qset b.

(** The instruction a layer entry is written back as:
    [circuit.append(gate, qubits, [])]. *)
Definition emitted (o : op) : CircuitInstruction :=
  mkCI (gate o) (qubits o) [].

Definition strip (ci : CircuitInstruction) : CircuitInstruction :=
  mkCI (operation ci) (Qiskit.qubits ci) [].

Lemma qubit_disjoint_nil : qubit_disjoint [].
Proof. intros i j a b _ H. by rewrite lookup_nil in H. Qed.

Lemma qubit_disjoint_snoc L o :
  qubit_disjoint L -> (∀ a, a ∈ L -> qset a ## qset o) ->
  qubit_disjoint (L ++ [o]).
Proof.
  intros HL Ho i j a b Hij Hi Hj.
  apply lookup_snoc_Some in Hi as [[Hi1 Hi2]|[Hi1 <-]];
    apply lookup_snoc_Some in Hj as [[Hj1 Hj2]|[Hj1 <-]].
  - by eapply HL.
  - apply Ho. by eapply list_elem_of_lookup_2.
  - symmetry. apply Ho. by eapply list_elem_of_lookup_2.
  - lia.
Qed.

(** The state of the layering loop. *)
Record build_inv (st : list (list op) * list op * gset nat) : Prop := {
  inv_active : st.2 = ⋃ (qset <$> st.1.2);
  inv_current : qubit_disjoint st.1.2;
  inv_layers : Forall (fun L => qubit_disjoint L ∧ L ≠ []) st.1.1
}.

Lemma existsb_active_false (active : gset nat) qargs :
  existsb (fun idx => bool_decide (idx ∈ active)) qargs = false ->
  list_to_set qargs ## active.
Proof.
  intros H x Hx Ha. apply elem_of_list_to_set in Hx.
  assert (existsb (fun idx => bool_decide (idx ∈ active)) qargs = true)
    as Ht; [|congruence].
  apply existsb_exists. exists x. split; [by apply list_elem_of_In|].
  by apply bool_decide_eq_true_2.
Qed.

Lemma build_step_inv st ci : build_inv st -> build_inv (build_step st ci).
Proof.
  destruct st as [[ls cur] active], ci as [instr qargs cargs].
  intros [Ha Hc Hl]. simpl in *. unfold build_step.
  destruct (existsb _ qargs) eqn:Hex.
  - split; simpl.
    + unfold qset. simpl. set_solver.
    + apply (qubit_disjoint_snoc [] _ qubit_disjoint_nil).
      intros a Hin. by apply elem_of_nil in Hin.
    + destruct cur; [done|]. apply Forall_app. split; [done|].
      by repeat constructor.
  - split; simpl.
    + rewrite fmap_app, union_list_app_L, Ha. unfold qset. simpl.
      set_solver.
    + apply qubit_disjoint_snoc; [done|].
      intros a Hin. apply existsb_active_false in Hex.
      rewrite Ha in Hex. unfold qset at 2. simpl.
      assert (qset a ⊆ ⋃ (qset <$> cur)).
      { intros x Hx. apply elem_of_union_list. exists (qset a).
        split; [|done]. apply list_elem_of_fmap. by exists a. }
      set_solver.
    + done.
Qed.

Lemma build_fold_inv d : ∀ st,
  build_inv st -> build_inv (fold_left build_step d st).
Proof.
  induction d as [|ci d IH]; intros st H; [done|].
  simpl. by apply IH, build_step_inv.
Qed.

(** Every layer the builder returns is not empty, and its entries act on
    pairwise disjoint qubits. *)
Lemma build_layers_disjoint c L :
  L ∈ layers (_build_hierarchy c) -> qubit_disjoint L ∧ L ≠ [].
Proof.
  unfold _build_hierarchy.
  pose proof (build_fold_inv (data c) ([], [], ∅)) as H.
  destruct (fold_left build_step (data c) ([], [], ∅)) as [[ls cur] act].
  destruct H as [_ Hc Hl].
  { split; simpl; [done|apply qubit_disjoint_nil|constructor]. }
  simpl in *. intros HL.
  assert (HL' : L ∈ ls ∨ (L = cur ∧ cur ≠ [])).
  { destruct cur; [by left|]. apply elem_of_app in HL as [?|HL]; [by left|].
    right. by apply list_elem_of_singleton in HL as ->. }
  destruct HL' as [HL'|[-> Hne]]; [|done].
  by apply (proj1 (Forall_forall _ _) Hl).
Qed.

(** The layers hold the instructions of the circuit, in program order. *)
Definition content (st : list (list op) * list op * gset nat)
    : list CircuitInstruction :=
  emitted <$> (concat st.1.1 ++ st.1.2).

Lemma build_step_content st ci :
  content (build_step st ci) = content st ++ [strip ci].
Proof.
  destruct st as [[ls cur] act], ci as [instr qargs cargs].
  unfold content, build_step.
  destruct (existsb _ qargs); simpl.
  - destruct cur; simpl.
    + by rewrite !app_nil_r, fmap_app.
    + rewrite concat_app. simpl. rewrite !app_nil_r.
      by rewrite !fmap_app.
  - by rewrite app_assoc, fmap_app.
Qed.

Lemma build_fold_content d : ∀ st,
  content (fold_left build_step d st) = content st ++ (strip <$> d).
Proof.
  induction d as [|ci d IH]; intros st; simpl.
  - by rewrite app_nil_r.
  - by rewrite IH, build_step_content, <- app_assoc.
Qed.

Lemma build_content c :
  emitted <$> concat (layers (_build_hierarchy c)) = strip <$> data c.
Proof.
  unfold _build_hierarchy.
  pose proof (build_fold_content (data c) ([], [], ∅)) as H.
  destruct (fold_left build_step (data c) ([], [], ∅)) as [[ls cur] act].
  unfold content in H. simpl in *. rewrite <- H. destruct cur; simpl.
  - by rewrite app_nil_r.
  - by rewrite concat_app; simpl; rewrite app_nil_r.
Qed.

(** *** The connectivity test on a layer of disjoint entries *)

Lemma merge_fold_Forall (X : gset nat) first l : ∀ mg,
  Forall (fun g => X ## g) mg ->
  Forall (fun g => X ## g)
    (fold_left
       (fun mg i =>
          match mg !! i with
          | Some gi => delete i (alter (fun g => g ∪ gi) first mg)
          | None => mg
          end) l mg).
Proof.
  induction l as [|i l IH]; intros mg H; simpl; [done|].
  apply IH. destruct (mg !! i) as [gi|] eqn:Hi; [|done].
  apply Forall_delete, Forall_alter; [done|].
  intros g _ Hg. pose proof (Forall_lookup_1 _ _ _ _ H Hi). set_solver.
Qed.

Lemma merge_step_Forall (X : gset nat) mg g :
  Forall (fun g => X ## g) mg -> X ## g ->
  Forall (fun g => X ## g) (merge_step mg g).
Proof.
  intros H Hg. unfold merge_step.
  destruct (overlapping_indices g mg) as [|first others].
  - apply Forall_app. by repeat constructor.
  - apply merge_fold_Forall, Forall_alter; [done|]. set_solver.
Qed.

Lemma merged_Forall (X : gset nat) groups : ∀ mg,
  Forall (fun g => X ## g) mg -> Forall (fun g => X ## g) groups ->
  Forall (fun g => X ## g) (fold_left merge_step groups mg).
Proof.
  induction groups as [|g groups IH]; intros mg H Hg; simpl; [done|].
  inversion Hg; subst. apply IH; [|done]. by apply merge_step_Forall.
Qed.

Lemma omap_all_None {A B} (f : A -> option B) l :
  (∀ x, x ∈ l -> f x = None) -> omap f l = [].
Proof.
  induction l as [|x l IH]; intros H; simpl; [done|].
  rewrite (H x) by left. apply IH. intros y Hy. apply H. by right.
Qed.

Lemma overlapping_indices_nil (X : gset nat) mg :
  Forall (fun g => X ## g) mg -> overlapping_indices X mg = [].
Proof.
  intros H. apply omap_all_None. intros [i e] Hie.
  apply elem_of_lookup_imap in Hie as (j & y & Heq & Hj).
  injection Heq as -> ->.
  pose proof (Forall_lookup_1 _ _ _ _ H Hj) as Hd.
  unfold overlaps. rewrite bool_decide_eq_false_2; [done|].
  intros Hne. apply Hne. set_solver.
Qed.

(** An entry whose qubits are disjoint from those of the entries accepted
    so far, of which there is at least one, never connects two groups. *)
Lemma no_bridge o F :
  F ≠ [] -> (∀ o', o' ∈ F -> qset o ## qset o') ->
  _breaks_connectivity o F = false.
Proof.
  intros Hne Hd. unfold _breaks_connectivity.
  destruct F as [|o1 F']; [done|].
  rewrite (overlapping_indices_nil (list_to_set (qubits o))); [done|].
  apply merged_Forall; [constructor|].
  apply Forall_fmap, Forall_forall. intros o' Ho'. by apply Hd.
Qed.

(** *** The stable sort *)

Lemma insert_desc_perm x l : insert_desc x l ≡ₚ x :: l.
Proof.
  induction l as [|y l IH]; simpl; [done|].
  destruct (flt x.2 y.2); [|done].
  rewrite IH. apply perm_swap.
Qed.

Lemma sorted_reverse_perm l : sorted_reverse l ≡ₚ l.
Proof.
  induction l as [|x l IH]; simpl; [done|].
  by rewrite insert_desc_perm, IH.
Qed.

(** *** The filtering loop *)

(** [layer[idx]] for each item of a list of (position, contribution). *)
Definition lookup_items (L : list op) (items : list (nat * float))
    : list op :=
  omap (fun it => L !! it.1) items.

(** The items whose contribution strictly exceeds the threshold. *)
Definition above (thr : float) (items : list (nat * float))
    : list (nat * float) :=
  List.filter (fun it => fgt it.2 thr) items.

Lemma filter_fold thr L :
  qubit_disjoint L -> ∀ S F,
  NoDup (S.*1) -> F ≠ [] ->
  (∀ o', o' ∈ F -> ∃ j, (j ∉ S.*1) ∧ L !! j = Some o') ->
  fold_left (filter_step thr L) S F = F ++ lookup_items L (above thr S).
Proof.
  intros HL S. induction S as [|[idx c] S IH]; intros F Hnd Hne HF; simpl.
  - by rewrite app_nil_r.
  - apply NoDup_cons in Hnd as [Hidx Hnd]. simpl in *.
    destruct (L !! idx) as [o|] eqn:Ho.
    + destruct (fgt c thr) eqn:Hc; simpl.
      * rewrite Ho. simpl. rewrite IH; [by rewrite <- app_assoc|done| |].
        { by destruct F. }
        intros o' Ho'. apply elem_of_app in Ho' as [Ho'|Ho'].
        -- destruct (HF o' Ho') as (j & Hj & Hjo). exists j.
           split; [|done]. intros Hin. apply Hj. by right.
        -- apply list_elem_of_singleton in Ho' as ->. by exists idx.
      * rewrite no_bridge; [|done|]; simpl.
        -- apply IH; [done|done|]. intros o' Ho'.
           destruct (HF o' Ho') as (j & Hj & Hjo). exists j.
           split; [|done]. intros Hin. apply Hj. by right.
        -- intros o' Ho'. destruct (HF o' Ho') as (j & Hj & Hjo).
           apply (HL idx j); [|done|done]. intros ->. apply Hj. by left.
    + destruct (fgt c thr); simpl; rewrite ?Ho; simpl;
        (apply IH; [done|done|]); intros o' Ho';
        destruct (HF o' Ho') as (j & Hj & Hjo); exists j;
        (split; [|done]); intros Hin; apply Hj; by right.
Qed.

(** The first item of the loop is accepted whatever its contribution:
    nothing is accepted yet, and [_breaks_connectivity] answers [True]. *)
Lemma filter_step_first thr L idx c o :
  L !! idx = Some o -> filter_step thr L [] (idx, c) = [o].
Proof. intros Ho. unfold filter_step. rewrite Ho. by destruct (fgt c thr). Qed.

(** The (position, contribution) items of a layer. *)
Definition items_of (L : list op) : list (nat * float) :=
  imap (fun i o => (i, _calculate_operation_contribution o L)) L.

Lemma items_of_fst L : (items_of L).*1 = seq 0 (length L).
Proof.
  unfold items_of. rewrite fmap_imap.
  rewrite (imap_ext _ (fun i _ => i)) by done.
  etrans; [apply (imap_seq_0 L id)|]. apply list_fmap_id.
Qed.

Lemma items_of_lookup L it :
  it ∈ items_of L ->
  ∃ o, L !! it.1 = Some o ∧ it.2 = _calculate_operation_contribution o L.
Proof.
  intros H. apply elem_of_lookup_imap in H as (i & o & -> & Ho).
  by exists o.
Qed.

Lemma filter_layer_sorted thr L :
  qubit_disjoint L -> 2 <= length L ->
  _filter_layer thr L
  = match sorted_reverse (items_of L) with
    | [] => []
    | it :: rest => lookup_items L [it] ++ lookup_items L (above thr rest)
    end.
Proof.
  intros HL Hlen. unfold _filter_layer.
  replace (length L <=? 1)%nat with false
    by (symmetry; apply Nat.leb_gt; lia).
  fold (items_of L).
  pose proof (sorted_reverse_perm (items_of L)) as Hp.
  assert (Hnd : NoDup ((sorted_reverse (items_of L)).*1)).
  { rewrite Hp, items_of_fst. apply NoDup_seq. }
  destruct (sorted_reverse (items_of L)) as [|[idx c] rest]; [done|].
  simpl in Hnd. apply NoDup_cons in Hnd as [Hidx Hnd].
  destruct (items_of_lookup L (idx, c)) as (o & Ho & _).
  { rewrite <- Hp. by left. }
  simpl in Ho.
  change (fold_left (filter_step thr L) ((idx, c) :: rest) [])
    with (fold_left (filter_step thr L) rest (filter_step thr L [] (idx, c))).
  rewrite (filter_step_first _ _ _ _ _ Ho).
  rewrite filter_fold; [|done|done|done|].
  - unfold lookup_items at 2. simpl. by rewrite Ho.
  - intros o' Ho'. apply list_elem_of_singleton in Ho' as ->. by exists idx.
Qed.

(** *** From layers back to the circuit *)

Lemma elem_of_concat {A} (x : A) ls :
  x ∈ concat ls ↔ ∃ l, l ∈ ls ∧ x ∈ l.
Proof.
  induction ls as [|l ls IH]; simpl.
  - split; [by intros ?%elem_of_nil|by intros (l & ?%elem_of_nil & _)].
  - rewrite elem_of_app, IH. split.
    + intros [H|(l' & H1 & H2)]; [exists l; split; [left|done]|].
      exists l'. split; [by right|done].
    + intros (l' & [->|H1]%elem_of_cons & H2); [by left|].
      right. by exists l'.
Qed.

Lemma reconstruct_fold ls : ∀ c,
  fold_left
    (fun circuit layer =>
       fold_left
         (fun circuit operation =>
            append circuit (gate operation) (qubits operation) [])
         layer circuit) ls c
  = mkQC (num_qubits c) (num_clbits c) (data c ++ (emitted <$> concat ls)).
Proof.
  assert (Hin : ∀ L c,
    fold_left (fun circuit operation =>
                 append circuit (gate operation) (qubits operation) []) L c
    = mkQC (num_qubits c) (num_clbits c) (data c ++ (emitted <$> L))).
  { induction L as [|o L IH]; intros c; simpl.
    - rewrite app_nil_r. by destruct c.
    - rewrite IH. simpl. by rewrite <- app_assoc. }
  induction ls as [|L ls IH]; intros c; simpl.
  - rewrite app_nil_r. by destruct c.
  - rewrite IH, Hin. simpl. by rewrite fmap_app, <- app_assoc.
Qed.

Lemma recursive_filtering_concat thr ls : ∀ acc,
  concat
    (fold_left
       (fun filtered layer =>
          match _filter_layer thr layer with
          | [] => filtered
          | filtered_layer => filtered ++ [filtered_layer]
          end) ls acc)
  = concat acc ++ concat (_filter_layer thr <$> ls).
Proof.
  induction ls as [|L ls IH]; intros acc; simpl.
  - by rewrite app_nil_r.
  - rewrite IH. destruct (_filter_layer thr L) as [|o F]; [done|].
    rewrite concat_app. simpl. by rewrite app_nil_r, <- app_assoc.
Qed.

(** The output lists what each layer contributes, layer after layer. *)
Lemma run_data thr c :
  data (run thr c)
  = emitted <$> concat (_filter_layer thr <$> layers (_build_hierarchy c)).
Proof.
  unfold run, _apply_qhrf_optimization, _reconstruct_from_hierarchy.
  rewrite reconstruct_fold. simpl. unfold _apply_recursive_filtering. simpl.
  by rewrite recursive_filtering_concat.
Qed.

(** The filter keeps the qubit count and returns no classical bits. *)
Lemma qhrf_counts thr c :
  num_qubits (run thr c) = num_qubits c ∧ num_clbits (run thr c) = 0.
Proof.
  unfold run, _apply_qhrf_optimization, _reconstruct_from_hierarchy.
  by rewrite reconstruct_fold.
Qed.

(** *** Entries above the threshold are kept *)

Lemma filter_fold_mono thr L S : ∀ F o,
  o ∈ F -> o ∈ fold_left (filter_step thr L) S F.
Proof.
  induction S as [|[idx c] S IH]; intros F o Ho; simpl; [done|].
  apply IH. destruct (L !! idx); [|done].
  destruct (fgt c thr); [set_solver|].
  destruct (negb _); set_solver.
Qed.

Lemma filter_fold_above thr L S : ∀ F idx c o,
  (idx, c) ∈ S -> L !! idx = Some o -> fgt c thr = true ->
  o ∈ fold_left (filter_step thr L) S F.
Proof.
  induction S as [|[idx' c'] S IH]; intros F idx c o Hin Ho Hc.
  - by apply elem_of_nil in Hin.
  - apply elem_of_cons in Hin as [Heq|Hin].
    + injection Heq as <- <-. simpl. apply filter_fold_mono.
      rewrite Ho, Hc. set_solver.
    + simpl. by eapply IH.
Qed.

Lemma kept_above thr L o :
  o ∈ L -> fgt (_calculate_operation_contribution o L) thr = true ->
  o ∈ _filter_layer thr L.
Proof.
  intros Ho Hc. unfold _filter_layer.
  destruct (length L <=? 1)%nat; [done|].
  apply list_elem_of_lookup in Ho as [i Hi].
  eapply filter_fold_above; [|done|done].
  rewrite sorted_reverse_perm. by apply elem_of_lookup_imap_2 with (i := i)
    (f := fun i o => (i, _calculate_operation_contribution o L)).
Qed.

(** C5, as stated, fails: at threshold 0 the filter drops the rotation by
    angle 0 that shares a layer with a Hadamard gate. *)
Lemma zero_threshold_drops :
  ¬ (∀ ci, ci ∈ data zero_rotation -> ci ∈ data (run 0 zero_rotation)).
Proof.
  intros H. specialize (H (mkCI (RXGate 0) [1] [])).
  assert (Hin : mkCI (RXGate 0) [1] [] ∈ data zero_rotation)
    by (right; left).
  specialize (H Hin).
  change (data (run 0 zero_rotation))
    with [mkCI (mkInstruction "h" []) [0] []] in H.
  apply list_elem_of_singleton in H. discriminate.
Qed.

(** *** Raising the threshold *)

Lemma above_mono L t1 t2 S :
  flt t1 t2 = true ->
  length (lookup_items L (above t2 S)) <= length (lookup_items L (above t1 S)).
Proof.
  intros Ht. induction S as [|[idx c] S IH]; simpl; [done|].
  destruct (fgt c t2) eqn:H2.
  - assert (fgt c t1 = true) as -> by (by eapply FloatOrder.flt_trans).
    simpl. destruct (L !! idx); simpl; lia.
  - destruct (fgt c t1); simpl; [|done].
    destruct (L !! idx); simpl; lia.
Qed.

Lemma filter_layer_length_mono L t1 t2 :
  qubit_disjoint L -> flt t1 t2 = true ->
  length (_filter_layer t2 L) <= length (_filter_layer t1 L).
Proof.
  intros HL Ht. destruct (decide (length L <= 1)) as [Hlen|Hlen].
  - unfold _filter_layer.
    by replace (length L <=? 1)%nat with true
      by (symmetry; by apply Nat.leb_le).
  - rewrite !filter_layer_sorted by (done || lia).
    destruct (sorted_reverse (items_of L)) as [|it rest]; [done|].
    rewrite !length_app. pose proof (above_mono L t1 t2 rest Ht). lia.
Qed.

(** C6.  Threshold monotonicity: for thresholds [t1 < t2] the filter
    returns at most as many operations at [t2] as at [t1]. *)
Theorem threshold_monotone t1 t2 c :
  flt t1 t2 = true ->
  length (data (run t2 c)) <= length (data (run t1 c)).
Proof.
  intros Ht. rewrite !run_data, !length_fmap.
  assert (Hall : Forall qubit_disjoint (layers (_build_hierarchy c))).
  { apply Forall_forall. intros L HL. by apply (build_layers_disjoint c). }
  induction Hall as [|L ls HL _ IH]; [done|].
  rewrite !fmap_cons. cbn [concat]. rewrite !length_app.
  pose proof (filter_layer_length_mono L t1 t2 HL Ht). lia.
Qed.

Lemma threshold_monotone_witness :
  length (data (run 0.1 small_and_large))
  <= length (data (run 0.001 small_and_large)).
Proof. apply threshold_monotone. vm_compute. reflexivity. Defined.

(** *** What a layer contributes *)

Lemma filter_perm {A} (f : A -> bool) l l' :
  l ≡ₚ l' -> List.filter f l ≡ₚ List.filter f l'.
Proof.
  induction 1 as [|x l l' _ IH|x y l|l1 l2 l3 _ IH1 _ IH2]; simpl.
  - done.
  - destruct (f x); by rewrite IH.
  - destruct (f x), (f y); (done || apply perm_swap).
  - by rewrite IH1.
Qed.

Lemma lookup_above_imap thr (f : op -> float) L : ∀ pre,
  lookup_items (pre ++ L)
    (above thr (imap (fun i o => (length pre + i, f o)) L))
  = List.filter (fun o => fgt (f o) thr) L.
Proof.
  induction L as [|o L IH]; intros pre; [reflexivity|].
  rewrite imap_cons. simpl.
  rewrite (imap_ext _ (fun i x => (length (pre ++ [o]) + i, f x))).
  2:{ intros i x _. simpl. rewrite length_app. simpl. f_equal. lia. }
  specialize (IH (pre ++ [o])). rewrite <- app_assoc in IH. simpl in IH.
  destruct (fgt (f o) thr); simpl; [|done].
  rewrite lookup_app_r by lia.
  replace (length pre + 0 - length pre) with 0 by lia. simpl.
  f_equal. done.
Qed.

Lemma lookup_above_items thr L :
  lookup_items L (above thr (items_of L))
  = List.filter (fun o => fgt (_calculate_operation_contribution o L) thr) L.
Proof.
  apply (lookup_above_imap thr
           (fun o => _calculate_operation_contribution o L) L []).
Qed.

(** *** Entries above the threshold are kept, each as often as it occurs *)

Lemma lookup_items_perm L S S' :
  S ≡ₚ S' -> lookup_items L S ≡ₚ lookup_items L S'.
Proof.
  unfold lookup_items.
  induction 1 as [|x l l' _ IH|x y l|l1 l2 l3 _ IH1 _ IH2]; simpl.
  - done.
  - destruct (L !! x.1); by rewrite IH.
  - destruct (L !! x.1), (L !! y.1); (done || apply perm_swap).
  - by rewrite IH1.
Qed.

Lemma lookup_items_cons L it S :
  lookup_items L (it :: S) = lookup_items L [it] ++ lookup_items L S.
Proof. unfold lookup_items. simpl. by destruct (L !! it.1). Qed.

Lemma lookup_items_length L S : length (lookup_items L S) <= length S.
Proof.
  induction S as [|it S IH]; [done|]. rewrite lookup_items_cons, length_app.
  unfold lookup_items at 1. simpl. destruct (L !! it.1); simpl; lia.
Qed.

Lemma above_length thr S : length (above thr S) <= length S.
Proof.
  induction S as [|it S IH]; simpl; [done|].
  destruct (fgt it.2 thr); simpl; lia.
Qed.

Lemma list_filter_submseteq {A} (f : A -> bool) l : List.filter f l ⊆+ l.
Proof.
  induction l as [|a l IH]; simpl; [done|].
  destruct (f a); [by apply submseteq_skip|by apply submseteq_cons].
Qed.

Lemma filter_true {A} (f : A -> bool) l :
  (∀ a, a ∈ l -> f a = true) -> List.filter f l = l.
Proof.
  induction l as [|a l IH]; intros H; [done|]. simpl.
  rewrite (H a) by left. f_equal. apply IH. intros a' Ha'. apply H.
  by right.
Qed.

(** A layer gives back, each as often as it occurs, the entries whose
    contribution strictly exceeds the threshold. *)
Lemma above_submseteq thr L :
  qubit_disjoint L ->
  List.filter (fun o => fgt (_calculate_operation_contribution o L) thr) L
  ⊆+ _filter_layer thr L.
Proof.
  intros HL. destruct (decide (length L <= 1)) as [Hlen|Hlen].
  - unfold _filter_layer.
    replace (length L <=? 1)%nat with true
      by (symmetry; by apply Nat.leb_le).
    apply list_filter_submseteq.
  - rewrite filter_layer_sorted by (done || lia).
    rewrite <- lookup_above_items.
    pose proof (sorted_reverse_perm (items_of L)) as Hp.
    rewrite <- (lookup_items_perm L _ _
                  (filter_perm (fun it => fgt it.2 thr) _ _ Hp)).
    destruct (sorted_reverse (items_of L)) as [|it rest]; [done|].
    simpl. destruct (fgt it.2 thr).
    + by rewrite lookup_items_cons.
    + by apply submseteq_inserts_l.
Qed.

Lemma filter_layer_length_le thr L :
  qubit_disjoint L -> length (_filter_layer thr L) <= length L.
Proof.
  intros HL. destruct (decide (length L <= 1)) as [Hlen|Hlen].
  - unfold _filter_layer.
    by replace (length L <=? 1)%nat with true
      by (symmetry; by apply Nat.leb_le).
  - rewrite filter_layer_sorted by (done || lia).
    pose proof (sorted_reverse_perm (items_of L)) as Hp.
    apply Permutation_length in Hp. unfold items_of at 2 in Hp.
    rewrite length_imap in Hp. rewrite <- Hp.
    destruct (sorted_reverse (items_of L)) as [|it rest]; [done|].
    rewrite length_app.
    pose proof (lookup_items_length L [it]).
    pose proof (lookup_items_length L (above thr rest)).
    pose proof (above_length thr rest). simpl in *. lia.
Qed.

(** C5, amended.  At threshold 0 the filter keeps every operation whose
    contribution score, computed in its layer, is strictly positive, each
    as often as it occurs: the positive-score operations of the layers,
    written back as instructions, are contained as a multiset in the
    output.  In particular, when every score is positive no operation is
    dropped: the output is the input (without classical bits) up to
    order. *)
Theorem zero_threshold_keeps_positive c :
  emitted <$>
    concat ((fun L =>
               List.filter
                 (fun o => fgt (_calculate_operation_contribution o L) 0) L)
            <$> layers (_build_hierarchy c))
  ⊆+ data (run 0 c)
  ∧ ((∀ L o, L ∈ layers (_build_hierarchy c) -> o ∈ L ->
        fgt (_calculate_operation_contribution o L) 0 = true) ->
     data (run 0 c) ≡ₚ strip <$> data c).
Proof.
  assert (Hall : Forall qubit_disjoint (layers (_build_hierarchy c))).
  { apply Forall_forall. intros L HL. by apply (build_layers_disjoint c). }
  split.
  - rewrite run_data. apply fmap_submseteq.
    induction Hall as [|L ls HL _ IH]; [done|].
    rewrite !fmap_cons. cbn [concat].
    apply submseteq_app; [by apply above_submseteq|done].
  - intros Hpos. rewrite <- build_content, run_data.
    apply fmap_Permutation. symmetry.
    apply submseteq_length_Permutation.
    + induction Hall as [|L ls HL _ IH]; [done|].
      rewrite fmap_cons. cbn [concat]. apply submseteq_app.
      * rewrite <- (filter_true
                      (fun o => fgt (_calculate_operation_contribution o L) 0)
                      L) at 1.
        -- by apply above_submseteq.
        -- intros o Ho. apply Hpos; [left|done].
      * apply IH. intros L' o HL' Ho. apply Hpos; [by right|done].
    + clear Hpos. induction Hall as [|L ls HL _ IH]; [done|].
      rewrite fmap_cons. cbn [concat]. rewrite !length_app.
      pose proof (filter_layer_length_le 0 L HL). lia.
Qed.

Lemma zero_threshold_keeps_positive_witness :
  data (run 0 h_twice) ≡ₚ strip <$> data h_twice.
Proof.
  apply (proj2 (zero_threshold_keeps_positive h_twice)).
  intros L o HL Ho. vm_compute in HL.
  repeat (apply elem_of_cons in HL as [->|HL]);
    [..|by apply elem_of_nil in HL];
    (repeat (apply elem_of_cons in Ho as [->|Ho]);
       [..|by apply elem_of_nil in Ho]; vm_compute; reflexivity).
Defined.

(** The first item of the sorted list is maximal, and every item in front
    of it in the original list is strictly smaller. *)
Lemma sorted_head l : ∀ b rest,
  Forall (fun it => is_nan it.2 = false) l ->
  sorted_reverse l = b :: rest ->
  (∀ y, y ∈ l -> flt b.2 y.2 = false)
  ∧ ∃ l1 l2, l = l1 ++ b :: l2 ∧ ∀ y, y ∈ l1 -> flt y.2 b.2 = true.
Proof.
  induction l as [|x l IH]; intros b rest Hnan Hs; [done|].
  inversion Hnan as [|? ? Hx Hl]; subst. simpl in Hs.
  destruct (sorted_reverse l) as [|y r] eqn:Hsl.
  - assert (l = []) as ->.
    { pose proof (sorted_reverse_perm l) as Hp. rewrite Hsl in Hp.
      by apply Permutation.Permutation_nil in Hp. }
    simpl in Hs. injection Hs as <- <-. split.
    + intros y Hy. apply list_elem_of_singleton in Hy as ->.
      apply FloatOrder.flt_irrefl.
    + exists [], []. split; [done|]. by intros y ?%elem_of_nil.
  - destruct (IH y r Hl eq_refl) as (Hmax & l1 & l2 & -> & Hfirst).
    simpl in Hs. destruct (flt x.2 y.2) eqn:Hxy.
    + injection Hs as <- <-. split.
      * intros z [->|Hz]%elem_of_cons; [by apply FloatOrder.flt_asym|].
        by apply Hmax.
      * exists (x :: l1), l2. split; [done|].
        intros z [->|Hz]%elem_of_cons; [done|by apply Hfirst].
    + injection Hs as <- <-. split.
      * intros z [->|Hz]%elem_of_cons; [apply FloatOrder.flt_irrefl|].
        destruct (flt x.2 z.2) eqn:Hxz; [|done].
        assert (Hy : is_nan y.2 = false).
        { apply (proj1 (Forall_forall _ _) Hl). set_solver. }
        destruct (FloatOrder.flt_negtrans _ _ _ Hy Hxz) as [H|H];
          [congruence|]. by rewrite Hmax in H.
      * exists [], (l1 ++ y :: l2). split; [done|].
        by intros z ?%elem_of_nil.
Qed.

Lemma items_of_no_nan L :
  (∀ o, o ∈ L -> is_nan (_calculate_operation_contribution o L) = false) ->
  Forall (fun it => is_nan it.2 = false) (items_of L).
Proof.
  intros H. apply Forall_forall. intros it Hit.
  destruct (items_of_lookup L it Hit) as (o & Ho & ->).
  apply H. by eapply list_elem_of_lookup_2.
Qed.

Lemma items_of_split L l1 i c l2 :
  items_of L = l1 ++ (i, c) :: l2 -> i = length l1.
Proof.
  intros H.
  assert (Hl : items_of L !! length l1 = Some (i, c)).
  { rewrite H, lookup_app_r by lia. by rewrite Nat.sub_diag. }
  unfold items_of in Hl. rewrite list_lookup_imap in Hl.
  destruct (L !! length l1); simpl in Hl; [|done]. by injection Hl.
Qed.

Lemma filter_layer_nonempty thr L : L ≠ [] -> _filter_layer thr L ≠ [].
Proof.
  intros Hne. unfold _filter_layer.
  destruct (length L <=? 1)%nat eqn:Hlen; [done|].
  fold (items_of L).
  pose proof (sorted_reverse_perm (items_of L)) as Hp.
  destruct (sorted_reverse (items_of L)) as [|[idx c] rest].
  - apply Permutation_length in Hp. unfold items_of in Hp.
    rewrite length_imap in Hp. apply Nat.leb_gt in Hlen. simpl in Hp. lia.
  - destruct (items_of_lookup L (idx, c)) as (o & Ho & _).
    { rewrite <- Hp. by left. }
    simpl in Ho.
    change (fold_left (filter_step thr L) ((idx, c) :: rest) [])
      with (fold_left (filter_step thr L) rest
              (filter_step thr L [] (idx, c))).
    rewrite (filter_step_first _ _ _ _ _ Ho).
    pose proof (filter_fold_mono thr L rest [o] o) as Hin.
    intros Hnil. rewrite Hnil in Hin.
    apply (not_elem_of_nil o), Hin. by left.
Qed.

Lemma run_nonempty thr c : data c ≠ [] -> data (run thr c) ≠ [].
Proof.
  intros Hc Hr. rewrite run_data in Hr. apply fmap_nil_inv in Hr.
  pose proof (build_content c) as Hb.
  destruct (layers (_build_hierarchy c)) as [|L ls] eqn:Hls.
  - simpl in Hb. symmetry in Hb. by apply fmap_nil_inv in Hb.
  - assert (HL : L ≠ []).
    { apply (build_layers_disjoint c). rewrite Hls. by left. }
    rewrite fmap_cons in Hr. cbn [concat] in Hr.
    apply app_eq_nil in Hr as [Hr _].
    by apply (filter_layer_nonempty thr L).
Qed.

(** C9.  What the filter computes.  The output lists the contributions of
    the layers in order.  For a layer [L] of the hierarchy: its operations
    act on pairwise disjoint qubits; a layer of one operation passes
    through unchanged; the bridge test never succeeds on an operation of
    [L] against a non-empty set of other operations of [L]; and, when the
    contribution scores are numbers and [L] has two operations or more,
    [L] contributes exactly the operations whose score strictly exceeds
    the threshold if there is one, and otherwise the single operation of
    highest score, the earliest one on ties.  The output of a circuit
    with an instruction is never empty. *)
Theorem filter_characterisation thr c :
  data (run thr c)
  = emitted <$> concat (_filter_layer thr <$> layers (_build_hierarchy c))
  ∧ (∀ L, L ∈ layers (_build_hierarchy c) ->
       qubit_disjoint L
       ∧ (length L = 1 -> _filter_layer thr L = L)
       ∧ (∀ i o F,
            L !! i = Some o -> F ≠ [] ->
            (∀ o', o' ∈ F -> ∃ j, j ≠ i ∧ L !! j = Some o') ->
            _breaks_connectivity o F = false)
       ∧ ((∀ o, o ∈ L ->
             is_nan (_calculate_operation_contribution o L) = false) ->
          2 <= length L ->
          ((∃ o, o ∈ L
                 ∧ fgt (_calculate_operation_contribution o L) thr = true) ->
           _filter_layer thr L
           ≡ₚ List.filter
                (fun o => fgt (_calculate_operation_contribution o L) thr) L)
          ∧ ((∀ o, o ∈ L ->
                fgt (_calculate_operation_contribution o L) thr = false) ->
             ∃ i o,
               L !! i = Some o
               ∧ _filter_layer thr L = [o]
               ∧ (∀ o', o' ∈ L ->
                    flt (_calculate_operation_contribution o L)
                        (_calculate_operation_contribution o' L) = false)
               ∧ (∀ j o', j < i -> L !! j = Some o' ->
                    flt (_calculate_operation_contribution o' L)
                        (_calculate_operation_contribution o L) = true))))
  ∧ (data c ≠ [] -> data (run thr c) ≠ []).
Proof.
  split; [apply run_data|]. split; [|apply run_nonempty].
  intros L HL. destruct (build_layers_disjoint c L HL) as [Hd Hne].
  split; [done|]. split; [|split].
  - intros Hlen. unfold _filter_layer. by rewrite Hlen.
  - intros i o F Ho HF Hothers. apply no_bridge; [done|].
    intros o' Ho'. destruct (Hothers o' Ho') as (j & Hj & Hjo).
    apply (Hd i j); [by intros ->|done|done].
  - intros Hnan Hlen.
    pose proof (filter_layer_sorted thr L Hd Hlen) as Hf.
    pose proof (sorted_reverse_perm (items_of L)) as Hp.
    destruct (sorted_reverse (items_of L)) as [|[idx c0] rest] eqn:Hs.
    { apply Permutation_length in Hp. unfold items_of in Hp.
      rewrite length_imap in Hp. simpl in Hp. lia. }
    destruct (sorted_head (items_of L) (idx, c0) rest
                (items_of_no_nan L Hnan) Hs)
      as (Hmax & l1 & l2 & Hsplit & Hfirst).
    destruct (items_of_lookup L (idx, c0)) as (o & Ho & Hc0).
    { rewrite <- Hp. by left. }
    simpl in Ho, Hc0, Hmax, Hfirst.
    assert (Hmax' : ∀ o', o' ∈ L ->
              flt c0 (_calculate_operation_contribution o' L) = false).
    { intros o' [j Hj]%list_elem_of_lookup.
      apply (Hmax (j, _calculate_operation_contribution o' L)).
      by apply elem_of_lookup_imap_2 with (i := j)
        (f := fun i o => (i, _calculate_operation_contribution o L)). }
    split.
    + intros (o' & Ho' & Hgt).
      assert (Hc : fgt c0 thr = true).
      { assert (Hn : is_nan c0 = false).
        { rewrite Hc0. apply Hnan. by eapply list_elem_of_lookup_2. }
        destruct (FloatOrder.flt_negtrans _ _ _ Hn Hgt) as [H|H]; [done|].
        by rewrite Hmax' in H. }
      rewrite Hf, <- lookup_above_items. unfold above, lookup_items.
      rewrite <- (filter_perm _ _ _ Hp). simpl. rewrite Hc. simpl.
      by destruct (L !! idx).
    + intros Hbelow. exists idx, o. split; [done|]. split; [|split].
      * rewrite Hf. replace (above thr rest) with ([] : list (nat * float)).
        { unfold lookup_items. simpl. by rewrite Ho. }
        symmetry. unfold above.
        assert (Hall : ∀ it, it ∈ rest -> fgt it.2 thr = false).
        { intros it Hit.
          destruct (items_of_lookup L it) as (o' & Ho' & ->).
          { rewrite <- Hp. by right. }
          apply Hbelow. by eapply list_elem_of_lookup_2. }
        clear -Hall. induction rest as [|it rest IH]; simpl; [done|].
        rewrite (Hall it) by left. apply IH. intros x Hx. apply Hall.
        by right.
      * intros o' Ho'. rewrite <- Hc0. by apply Hmax'.
      * intros j o' Hj Hjo. rewrite <- Hc0.
        pose proof (items_of_split L l1 idx c0 l2 Hsplit) as ->.
        apply (Hfirst (j, _calculate_operation_contribution o' L)).
        assert (Hit : items_of L !! j
                      = Some (j, _calculate_operation_contribution o' L)).
        { unfold items_of. by rewrite list_lookup_imap, Hjo. }
        rewrite Hsplit, lookup_app_l in Hit by done.
        by eapply list_elem_of_lookup_2.
Qed.

Ltac each_entry H :=
  repeat (apply elem_of_cons in H as [->|H]);
  [..|by apply elem_of_nil in H]; vm_compute; reflexivity.

Lemma filter_characterisation_witness :
  (∃ i o,
     three_small_layer !! i = Some o
     ∧ _filter_layer 0.9 three_small_layer = [o]
     ∧ (∀ o', o' ∈ three_small_layer ->
          flt (_calculate_operation_contribution o three_small_layer)
              (_calculate_operation_contribution o' three_small_layer)
          = false)
     ∧ (∀ j o', j < i -> three_small_layer !! j = Some o' ->
          flt (_calculate_operation_contribution o' three_small_layer)
              (_calculate_operation_contribution o three_small_layer)
          = true))
  ∧ _filter_layer 0.05 three_small_layer
    ≡ₚ List.filter
         (fun o =>
            fgt (_calculate_operation_contribution o three_small_layer) 0.05)
         three_small_layer
  ∧ data (run 0.9 three_small) ≠ [].
Proof.
  assert (HL : three_small_layer ∈ layers (_build_hierarchy three_small))
    by (vm_compute; left).
  assert (Hnan : ∀ o, o ∈ three_small_layer ->
            is_nan (_calculate_operation_contribution o three_small_layer)
            = false)
    by (intros o Ho; each_entry Ho).
  assert (Hlen : 2 <= length three_small_layer) by (simpl; lia).
  split; [|split].
  - apply (proj2 (proj2 (proj2 (proj2 (proj1 (proj2
             (filter_characterisation 0.9 three_small))
             three_small_layer HL))) Hnan Hlen)).
    intros o Ho. each_entry Ho.
  - apply (proj1 (proj2 (proj2 (proj2 (proj1 (proj2
             (filter_characterisation 0.05 three_small))
             three_small_layer HL))) Hnan Hlen)).
    exists (mkOp (RYGate 0.2) [1] 1). split; [right; left|].
    vm_compute. reflexivity.
  - apply (proj2 (proj2 (filter_characterisation 0.9 three_small))).
    discriminate.
Defined.

(** C4.  The only operation on qubits 2 and 3 is not preserved.  The two
    CNOTs of cx(0,1), cx(2,3) form one layer; with threshold 2.0 both
    scores (1.5) are below the threshold; the first is accepted because
    nothing is accepted yet, and for the second the connectivity test
    finds the single group {0, 1}, which cx(2,3) does not touch, and
    answers [False]: the output is cx(0,1) alone. *)
Theorem connector_dropped :
  layers (_build_hierarchy two_cx)
  = [[mkOp cx_gate [0; 1] 0; mkOp cx_gate [2; 3] 1]]
  ∧ _calculate_operation_contribution (mkOp cx_gate [2; 3] 1)
      [mkOp cx_gate [0; 1] 0; mkOp cx_gate [2; 3] 1] = 1.5%float
  ∧ _breaks_connectivity (mkOp cx_gate [2; 3] 1) [mkOp cx_gate [0; 1] 0]
    = false
  ∧ run 2.0 two_cx = mkQC 4 0 [mkCI cx_gate [0; 1] []].
Proof. repeat split; vm_compute; reflexivity. Qed.

End QHRFFacts.

(** ** Properties of the IonQ pass *)

Module IonQFacts.
Import IonQOptimizationPass Scenarios.

(** C8, as stated, fails: the pass does not return the five rewritten
    instructions. *)
Lemma translator_scenario_not_rewrite_only :
  run false h_cx <> Some h_cx_rewritten.
Proof. vm_compute. discriminate. Qed.

(** C8, amended.  On H(q0), CNOT(q0, q1) the per-gate rewrite stage emits
    ry(pi/2), rx(pi), rx(-pi/2) on q0, rx(-pi/2) on q1 and rxx(pi/4) on
    (q0, q1); the rotation-fusion stage then merges the three rotations of
    q0, and the pass returns rx(pi/2), ry(pi/2) on q0, rx(-pi/2) on q1 and
    rxx(pi/4) on (q0, q1), with or without [use_tket]. *)
Theorem translator_scenario :
  _optimize_gate_set h_cx = Some h_cx_rewritten
  ∧ ∀ use_tket,
      run use_tket h_cx
      = Some (mkQC 2 0 [mkCI (RXGate (np_pi / 2)) [0] [];
                        mkCI (RYGate (np_pi / 2)) [0] [];
                        mkCI (RXGate (- np_pi / 2)) [1] [];
                        mkCI (RXXGate (np_pi / 4)) [0; 1] []]).
Proof. split; [|intros []]; vm_compute; reflexivity. Qed.

(** *** The loops, on instruction lists *)

Lemma for_each_nil {S A} (body : S -> A -> option S) init :
  for_each body [] init = Some init.
Proof. done. Qed.

Lemma for_each_cons {S A} (body : S -> A -> option S) x l init :
  for_each body (x :: l) init = body init x ≫= for_each body l.
Proof.
  unfold for_each. simpl. destruct (body init x) as [s|]; simpl; [done|].
  induction l as [|y l IH]; simpl; [done|]. apply IH.
Qed.

(** The instructions [emit_rotation] appends for a list of rotations. *)
Definition emit_list (q : nat) (rots : list (string * float))
    : list CircuitInstruction :=
  omap (fun '(n, a) =>
          if name_in n ["rx"; "ry"; "rz"]
          then Some (mkCI (mkInstruction n [a]) [q] [])
          else None) rots.

(** The instructions one flush appends. *)
Definition flush_list (d : rotation_dict) : list CircuitInstruction :=
  concat (map (fun '(q, rots) =>
                 emit_list q (_optimize_rotation_sequence rots)) d).

Lemma emit_fold q rots : ∀ oc,
  fold_left (emit_rotation q) rots oc
  = mkQC (num_qubits oc) (num_clbits oc) (data oc ++ emit_list q rots).
Proof.
  induction rots as [|[n a] rots IH]; intros oc; simpl.
  - rewrite app_nil_r. by destruct oc.
  - rewrite IH. unfold emit_rotation, name_in.
    destruct (String.eqb_spec n "rx") as [->|Hx]; simpl.
    { by rewrite <- app_assoc. }
    destruct (String.eqb_spec n "ry") as [->|Hy]; simpl.
    { by rewrite <- app_assoc. }
    destruct (String.eqb_spec n "rz") as [->|Hz]; simpl.
    { by rewrite <- app_assoc. }
    rewrite bool_decide_eq_false_2; [done|].
    intros Hin. repeat (apply elem_of_cons in Hin as [?|Hin]); try done.
    by apply elem_of_nil in Hin.
Qed.

Lemma optimize_nil : _optimize_rotation_sequence [] = [].
Proof. vm_compute. reflexivity. Qed.

Lemma flush_data d : ∀ oc,
  flush oc d
  = mkQC (num_qubits oc) (num_clbits oc) (data oc ++ flush_list d).
Proof.
  unfold flush, flush_list.
  induction d as [|[q rots] d IH]; intros oc; simpl.
  - rewrite app_nil_r. by destruct oc.
  - rewrite IH. destruct rots as [|r rots].
    + rewrite optimize_nil. done.
    + rewrite emit_fold. simpl. by rewrite <- app_assoc.
Qed.

(** The fusion loop as a function from instruction lists to instruction
    lists: [d] is the dictionary of pending rotations. *)
Fixpoint fuse_data (l : list CircuitInstruction) (d : rotation_dict)
    : option (list CircuitInstruction) :=
  match l with
  | [] => Some (flush_list d)
  | ci :: rest =>
      if is_rotation ci then
        q ← head (Qiskit.qubits ci);
        a ← head (params (operation ci));
        fuse_data rest (dict_append d q (name (operation ci), a))
      else
        r ← fuse_data rest [];
        Some (flush_list d
              ++ mkCI (operation ci) (Qiskit.qubits ci) [] :: r)
  end.

Lemma rotations_step_rotation oc d ci :
  is_rotation ci = true ->
  rotations_step (oc, d) ci
  = (q ← head (Qiskit.qubits ci);
     a ← head (params (operation ci));
     Some (oc, dict_append d q (name (operation ci), a))).
Proof. intros H. destruct ci. unfold rotations_step. by rewrite H. Qed.

Lemma rotations_step_other oc d ci :
  is_rotation ci = false ->
  rotations_step (oc, d) ci
  = Some (append (flush oc d) (operation ci) (Qiskit.qubits ci) [], []).
Proof. intros H. destruct ci. unfold rotations_step. by rewrite H. Qed.

Lemma rotations_loop l : ∀ oc d,
  (for_each rotations_step l (oc, d)
     ≫= fun '(oc', d') => Some (flush oc' d'))
  = (r ← fuse_data l d;
     Some (mkQC (num_qubits oc) (num_clbits oc) (data oc ++ r))).
Proof.
  induction l as [|ci l IH]; intros oc d.
  - rewrite for_each_nil. simpl. by rewrite flush_data.
  - rewrite for_each_cons. cbn [fuse_data].
    destruct (is_rotation ci) eqn:Hrot.
    + rewrite rotations_step_rotation by done.
      destruct (head (Qiskit.qubits ci)) as [q|]; simpl; [|done].
      destruct (head (params (operation ci))) as [a|]; simpl; [|done].
      apply IH.
    + rewrite rotations_step_other by done. simpl.
      rewrite IH. simpl. destruct (fuse_data l []) as [r|]; simpl; [|done].
      rewrite flush_data. simpl. by rewrite <- !app_assoc.
Qed.

Lemma optimize_rotations_data c :
  _optimize_rotations c
  = (r ← fuse_data (data c) []; Some (mkQC (num_qubits c) 0 r)).
Proof.
  unfold _optimize_rotations.
  apply (rotations_loop (data c) (new_circuit (num_qubits c) 0) []).
Qed.

(** *** Bit counts *)

Lemma gate_set_step_counts oc ci oc' :
  gate_set_step oc ci = Some oc' ->
  num_qubits oc' = num_qubits oc ∧ num_clbits oc' = num_clbits oc.
Proof.
  destruct ci as [instr qargs cargs]. unfold gate_set_step.
  repeat match goal with
         | |- context [if ?b then _ else _] => destruct b
         end;
    try (destruct (head qargs); simpl; [|done]);
    try (destruct qargs as [|? [|? [|? ?]]]; simpl; try done);
    by intros [= <-].
Qed.

Lemma for_each_counts l : ∀ oc oc',
  for_each gate_set_step l oc = Some oc' ->
  num_qubits oc' = num_qubits oc ∧ num_clbits oc' = num_clbits oc.
Proof.
  induction l as [|ci l IH]; intros oc oc'.
  - rewrite for_each_nil. by intros [= <-].
  - rewrite for_each_cons.
    destruct (gate_set_step oc ci) as [oc1|] eqn:H1; simpl; [|done].
    intros H. destruct (IH _ _ H) as [-> ->].
    by apply gate_set_step_counts in H1.
Qed.

(** The translator keeps the qubit count and returns no classical
    bits. *)
Lemma ionq_counts use_tket c c' :
  run use_tket c = Some c' ->
  num_qubits c' = num_qubits c ∧ num_clbits c' = 0.
Proof.
  assert (H : _apply_qiskit_optimization c = Some c' ->
              num_qubits c' = num_qubits c ∧ num_clbits c' = 0).
  { unfold _apply_qiskit_optimization.
    destruct (_optimize_gate_set c) as [c1|] eqn:H1; simpl; [|done].
    rewrite optimize_rotations_data.
    destruct (fuse_data (data c1) []) as [r|]; simpl; [|done].
    intros [= <-]. simpl. split; [|done].
    by apply for_each_counts in H1 as [-> _]. }
  by destruct use_tket.
Qed.

(** *** Fusing twice *)

Lemma flt_zero_eps : flt 0 1e-10 = true.
Proof. vm_compute. reflexivity. Qed.

Lemma add_zero_above a : fgt (abs a) 1e-10 = true -> (0 + a)%float = a.
Proof.
  intros H. apply FloatOrder.add_zero_l.
  eapply FloatOrder.flt_trans; [apply flt_zero_eps|done].
Qed.

(** A fused sequence is its own fusion: each axis occurs at most once,
    with an angle that adding to [0.0] leaves as it is. *)
Lemma optimize_idem rots :
  _optimize_rotation_sequence (_optimize_rotation_sequence rots)
  = _optimize_rotation_sequence rots.
Proof.
  unfold _optimize_rotation_sequence at 2 3.
  destruct (fold_left _ rots _) as [[X Y] Z].
  destruct (fgt (abs X) 1e-10) eqn:HX, (fgt (abs Y) 1e-10) eqn:HY,
    (fgt (abs Z) 1e-10) eqn:HZ; unfold _optimize_rotation_sequence; simpl;
    rewrite ?add_zero_above by done; rewrite ?HX, ?HY, ?HZ; reflexivity.
Qed.

Definition valid_rotation (r : string * float) : Prop :=
  name_in r.1 ["rx"; "ry"; "rz"] = true.

Lemma optimize_valid rots :
  Forall valid_rotation (_optimize_rotation_sequence rots).
Proof.
  unfold _optimize_rotation_sequence.
  destruct (fold_left _ rots _) as [[X Y] Z].
  destruct (fgt (abs X) 1e-10), (fgt (abs Y) 1e-10), (fgt (abs Z) 1e-10);
    simpl; repeat constructor.
Qed.

Lemma dict_append_fresh E q r :
  q ∉ E.*1 -> dict_append E q r = E ++ [(q, [r])].
Proof.
  induction E as [|[k l] E IH]; intros Hq; simpl; [done|].
  apply not_elem_of_cons in Hq as [Hne Hq]. simpl in Hne.
  destruct (Nat.eqb_spec k q); [congruence|]. by rewrite IH.
Qed.

Lemma dict_append_last E q P r :
  q ∉ E.*1 -> dict_append (E ++ [(q, P)]) q r = E ++ [(q, P ++ [r])].
Proof.
  induction E as [|[k l] E IH]; intros Hq; simpl.
  - by rewrite Nat.eqb_refl.
  - apply not_elem_of_cons in Hq as [Hne Hq]. simpl in Hne.
    destruct (Nat.eqb_spec k q); [congruence|]. by rewrite IH.
Qed.

Lemma dict_append_keys D q r :
  NoDup (D.*1) -> NoDup ((dict_append D q r).*1).
Proof.
  intros Hnd. destruct (decide (q ∈ D.*1)) as [Hin|Hout].
  - assert ((dict_append D q r).*1 = D.*1) as ->; [|done].
    clear Hnd. induction D as [|[k l] D IH]; simpl.
    { by apply elem_of_nil in Hin. }
    destruct (Nat.eqb_spec k q) as [->|Hne]; [done|]. simpl. f_equal.
    apply IH. apply elem_of_cons in Hin as [Heq|Hin]; [|done].
    simpl in Heq. congruence.
  - rewrite dict_append_fresh by done. rewrite fmap_app. simpl.
    apply NoDup_app. split; [done|]. split; [|apply NoDup_singleton].
    intros x Hx Hx'. apply list_elem_of_singleton in Hx'. by subst.
Qed.

Lemma fuse_emit_acc q R : Forall valid_rotation R -> ∀ E P rest,
  q ∉ E.*1 ->
  fuse_data (emit_list q R ++ rest) (E ++ [(q, P)])
  = fuse_data rest (E ++ [(q, P ++ R)]).
Proof.
  induction 1 as [|[n a] R Hv _ IH]; intros E P rest Hq; simpl.
  - by rewrite app_nil_r.
  - unfold valid_rotation in Hv. simpl in Hv. rewrite Hv. simpl.
    unfold is_rotation. simpl. rewrite Hv. simpl.
    rewrite dict_append_last by done. rewrite IH by done.
    by rewrite <- app_assoc.
Qed.

Lemma fuse_emit q R rest E :
  Forall valid_rotation R -> q ∉ E.*1 ->
  fuse_data (emit_list q R ++ rest) E
  = fuse_data rest (E ++ match R with [] => [] | _ => [(q, R)] end).
Proof.
  intros HR Hq. destruct R as [|[n a] R].
  - simpl. by rewrite app_nil_r.
  - inversion HR as [|? ? Hv HR']; subst. simpl.
    unfold valid_rotation in Hv. simpl in Hv. rewrite Hv. simpl.
    unfold is_rotation. simpl. rewrite Hv. simpl.
    rewrite dict_append_fresh by done.
    by rewrite (fuse_emit_acc q R HR' E [(n, a)] rest Hq).
Qed.

(** The dictionary the loop rebuilds when it reads back one flush. *)
Definition norm (D : rotation_dict) : rotation_dict :=
  concat (map (fun '(q, rots) =>
                 match _optimize_rotation_sequence rots with
                 | [] => []
                 | R => [(q, R)]
                 end) D).

Lemma flush_list_cons q rots D :
  flush_list ((q, rots) :: D)
  = emit_list q (_optimize_rotation_sequence rots) ++ flush_list D.
Proof. done. Qed.

Lemma norm_cons q rots D :
  norm ((q, rots) :: D)
  = match _optimize_rotation_sequence rots with
    | [] => []
    | R => [(q, R)]
    end ++ norm D.
Proof. done. Qed.

Lemma fuse_flush D : ∀ E rest,
  NoDup (E.*1 ++ D.*1) ->
  fuse_data (flush_list D ++ rest) E = fuse_data rest (E ++ norm D).
Proof.
  induction D as [|[q rots] D IH]; intros E rest Hnd.
  - unfold norm. simpl. by rewrite app_nil_r.
  - rewrite flush_list_cons, norm_cons, <- app_assoc.
    rewrite fmap_cons in Hnd. cbn [fst] in Hnd.
    apply NoDup_app in Hnd as (HE & Hdisj & HD).
    apply NoDup_cons in HD as [HqD HD].
    assert (HqE : q ∉ E.*1).
    { intros Hin. apply (Hdisj q Hin). by left. }
    rewrite fuse_emit by (done || apply optimize_valid).
    rewrite IH.
    { destruct (_optimize_rotation_sequence rots); by rewrite <- app_assoc. }
    rewrite fmap_app, <- app_assoc. apply NoDup_app.
    split; [done|]. split.
    + intros x Hx [Hx'|Hx']%elem_of_app.
      * destruct (_optimize_rotation_sequence rots); simpl in Hx'.
        -- by apply elem_of_nil in Hx'.
        -- apply list_elem_of_singleton in Hx' as ->. done.
      * apply (Hdisj x Hx). by right.
    + destruct (_optimize_rotation_sequence rots); [done|].
      rewrite fmap_cons. cbn [fst app fmap list_fmap].
      by apply NoDup_cons.
Qed.

Lemma flush_list_app D1 D2 :
  flush_list (D1 ++ D2) = flush_list D1 ++ flush_list D2.
Proof. unfold flush_list. by rewrite map_app, concat_app. Qed.

Lemma flush_norm D : flush_list (norm D) = flush_list D.
Proof.
  induction D as [|[q rots] D IH]; [done|].
  rewrite norm_cons, flush_list_app, flush_list_cons, IH. f_equal.
  destruct (_optimize_rotation_sequence rots) as [|r R] eqn:Hopt; [done|].
  rewrite flush_list_cons, <- Hopt, optimize_idem.
  unfold flush_list. simpl. by rewrite app_nil_r.
Qed.

Lemma is_rotation_strip ci :
  is_rotation (mkCI (operation ci) (Qiskit.qubits ci) []) = is_rotation ci.
Proof. done. Qed.

Lemma fuse_idem l : ∀ D out,
  NoDup (D.*1) -> fuse_data l D = Some out -> fuse_data out [] = Some out.
Proof.
  induction l as [|ci l IH]; intros D out Hnd Hf; simpl in Hf.
  - injection Hf as <-.
    rewrite <- (app_nil_r (flush_list D)) at 1.
    rewrite fuse_flush by exact Hnd. simpl. by rewrite flush_norm.
  - destruct (is_rotation ci) eqn:Hrot.
    + destruct (head (Qiskit.qubits ci)) as [q|]; simpl in Hf; [|done].
      destruct (head (params (operation ci))) as [a|]; simpl in Hf; [|done].
      eapply IH; [|done]. by apply dict_append_keys.
    + destruct (fuse_data l []) as [r|] eqn:Hr; simpl in Hf; [|done].
      injection Hf as <-.
      rewrite fuse_flush by exact Hnd. cbn [fuse_data app].
      rewrite is_rotation_strip, Hrot.
      rewrite (IH [] r) by (done || constructor). simpl.
      by rewrite flush_norm.
Qed.

(** The loop raises only on a rotation instruction without parameter. *)
Lemma fuse_total l : ∀ D,
  Forall (fun ci => is_rotation ci = true -> params (operation ci) ≠ []) l ->
  is_Some (fuse_data l D).
Proof.
  induction l as [|ci l IH]; intros D Hl; simpl; [done|].
  inversion Hl as [|? ? Hci Hl']; subst.
  destruct (is_rotation ci) eqn:Hrot.
  - assert (Hq : ∃ q, head (Qiskit.qubits ci) = Some q).
    { unfold is_rotation in Hrot. apply andb_prop in Hrot as [Hlen _].
      destruct (Qiskit.qubits ci) as [|q ?]; [done|by exists q]. }
    destruct Hq as [q ->]. simpl.
    destruct (params (operation ci)) as [|a ?]; [by destruct Hci|].
    simpl. by apply IH.
  - destruct (IH [] Hl') as [r ->]. done.
Qed.

Lemma optimize_rotations_total c :
  Forall (fun ci => is_rotation ci = true -> params (operation ci) ≠ [])
    (data c) ->
  is_Some (_optimize_rotations c).
Proof.
  intros H. rewrite optimize_rotations_data.
  by destruct (fuse_total (data c) [] H) as [r ->].
Qed.

(** Two consecutive rotations about X fuse into one. *)
Lemma fusion_scenario :
  _optimize_rotations two_rx
  = Some (mkQC 1 0 [mkCI (RXGate (np_pi / 4 + np_pi / 8)) [0] []]).
Proof. vm_compute. reflexivity. Qed.

(** C7.  Idempotence of rotation fusion: applying [_optimize_rotations]
    to its own result returns that result; when the first application
    raises, so does the composition. *)
Theorem fusion_idempotent c :
  _optimize_rotations c ≫= _optimize_rotations = _optimize_rotations c.
Proof.
  rewrite (optimize_rotations_data c).
  destruct (fuse_data (data c) []) as [r|] eqn:Hr; simpl; [|done].
  rewrite optimize_rotations_data. simpl.
  by rewrite (fuse_idem (data c) [] r) by (done || constructor).
Qed.

End IonQFacts.

(** ** Bit counts across the three passes *)

Module CountFacts.
Import Scenarios.

(** C3.  On a circuit with one qubit and one classical bit the truncator
    returns one classical bit, but the filter and the translator, which
    build their result with [QuantumCircuit(num_qubits)], return none. *)
Theorem clbits_dropped :
  num_clbits (SeqHTPass.run 0.01 3 with_clbit) = 1
  ∧ QHRFPass.run 0.01 with_clbit
    = mkQC 1 0 [mkCI (mkInstruction "h" []) [0] []]
  ∧ IonQOptimizationPass.run true with_clbit
    = Some (mkQC 1 0 [mkCI (RXGate np_pi) [0] [];
                      mkCI (RYGate (np_pi / 2)) [0] []]).
Proof. repeat split; vm_compute; reflexivity. Qed.

End CountFacts.

(** ** Further properties of SeqHT *)

Module SeqHTMore.
Import SeqHTPass SeqHTFacts Scenarios.

(** A gate the reconstruction can emit. *)
Definition rotation_gate (g : Instruction) : Prop :=
  ∃ theta, g = RXGate theta ∨ g = RYGate theta ∨ g = RZGate theta.

(** What the truncator may do to one instruction: keep it, or, when it is
    a recognised gate on a single qubit, put a rotation about X, Y or Z on
    that qubit in its place. *)
Definition kept_or_rotated (a b : CircuitInstruction) : Prop :=
  a = b
  ∨ ∃ q g, Qiskit.qubits a = [q]
           ∧ name (operation a) ∈ recognized
           ∧ rotation_gate g
           ∧ b = mkCI g [q] [].

Lemma kept_or_rotated_trans a b c :
  kept_or_rotated a b -> kept_or_rotated b c -> kept_or_rotated a c.
Proof.
  intros [->|(q & g & Hq & Hn & Hg & ->)]; [done|].
  intros [<-|(q' & g' & Hq' & Hn' & Hg' & ->)].
  - right. by exists q, g.
  - right. simpl in Hq'. injection Hq' as <-. by exists q, g'.
Qed.

Lemma reconstruct_rotations thr coeffs n :
  Forall (fun o => rotation_gate (get_gate o))
    (_reconstruct_from_sequency thr coeffs n).
Proof.
  unfold _reconstruct_from_sequency.
  destruct coeffs as [|[[a b] c] ?]; [constructor|].
  repeat apply Forall_app_2;
    match goal with |- context [if ?t then _ else _] => destruct t end;
    repeat constructor; simpl; eexists; eauto.
Qed.

Lemma extract_recognized c q :
  Forall (fun o => name (get_gate o) ∈ recognized)
    (_extract_single_qubit_operations c q).
Proof.
  apply Forall_fmap with (f := get_gate)
    (P := fun g : Instruction => name g ∈ recognized).
  rewrite extract_gates. apply Forall_fmap, Forall_forall.
  intros ci Hci. apply list_elem_of_In, filter_In in Hci as [_ Hci].
  by eapply is_target_recognized.
Qed.

Lemma should_replace_inv q orig k ci :
  should_replace q orig k ci = true ->
  Qiskit.qubits ci = [q]
  ∧ ∃ o, orig !! k = Some o ∧ name (operation ci) = name (get_gate o).
Proof.
  unfold should_replace. intros H.
  apply andb_prop in H as [_ H].
  destruct (orig !! k) as [o|]; [|done].
  apply andb_prop in H as [H Hn]. apply andb_prop in H as [Hl Hq].
  destruct (Qiskit.qubits ci) as [|a [|b l]]; try done.
  apply Nat.eqb_eq in Hq as ->. apply String.eqb_eq in Hn.
  split; [done|]. by exists o.
Qed.

Lemma replace_fold_related q orig opt d : ∀ nc k,
  Forall (fun o => name (get_gate o) ∈ recognized) orig ->
  Forall (fun o => rotation_gate (get_gate o)) opt ->
  ∃ d', data (fst (fold_left (replace_step q orig opt) d (nc, k)))
        = data nc ++ d' ∧ Forall2 kept_or_rotated d d'.
Proof.
  induction d as [|ci d IH]; intros nc k Horig Hopt; simpl.
  - exists []. rewrite app_nil_r. split; [done|constructor].
  - destruct (should_replace q orig k ci) eqn:Hs.
    + destruct (opt !! k) as [o|] eqn:Ho.
      * destruct (IH (append nc (get_gate o) [q] []) (S k) Horig Hopt)
          as (d' & -> & Hd').
        eexists (_ :: d'). simpl. rewrite <- app_assoc. split; [done|].
        constructor; [|done]. right. exists q, (get_gate o).
        apply should_replace_inv in Hs as (Hq & o' & Ho' & Hn).
        split; [done|]. split.
        { rewrite Hn. by apply (Forall_lookup_1 _ _ _ _ Horig Ho'). }
        split; [|done]. by apply (Forall_lookup_1 _ _ _ _ Hopt Ho).
      * destruct (IH (append nc (operation ci) (Qiskit.qubits ci)
                        (clbits ci)) (S k) Horig Hopt) as (d' & -> & Hd').
        exists (ci :: d'). simpl. rewrite <- app_assoc, mkCI_eta.
        split; [done|]. constructor; [by left|done].
    + destruct (IH (append nc (operation ci) (Qiskit.qubits ci)
                      (clbits ci)) k Horig Hopt) as (d' & -> & Hd').
      exists (ci :: d'). simpl. rewrite <- app_assoc, mkCI_eta.
      split; [done|]. constructor; [by left|done].
Qed.

Lemma Forall2_kept_refl d : Forall2 kept_or_rotated d d.
Proof. induction d; constructor; [by left|done]. Qed.

Lemma Forall2_kept_trans d1 d2 d3 :
  Forall2 kept_or_rotated d1 d2 -> Forall2 kept_or_rotated d2 d3 ->
  Forall2 kept_or_rotated d1 d3.
Proof.
  intros H. revert d3. induction H; intros d3 H3; inversion H3; subst;
    constructor; eauto using kept_or_rotated_trans.
Qed.

Lemma seqht_step_related thr mo c oc q :
  Forall2 kept_or_rotated (data oc) (data (seqht_step thr mo c oc q)).
Proof.
  unfold seqht_step.
  destruct (1 <? length (_extract_single_qubit_operations c q))%nat eqn:Hl;
    [|apply Forall2_kept_refl].
  unfold _replace_operations.
  destruct (replace_fold_related q (_extract_single_qubit_operations c q)
              (_optimize_single_qubit_sequence thr mo
                 (_extract_single_qubit_operations c q))
              (data oc) (new_circuit (num_qubits oc) (num_clbits oc)) 0)
    as (d' & -> & Hd'); [apply extract_recognized| |done].
  unfold _optimize_single_qubit_sequence.
  apply Nat.ltb_lt in Hl.
  replace (length (_extract_single_qubit_operations c q) <? 2)%nat
    with false by (symmetry; apply Nat.ltb_ge; lia).
  apply reconstruct_rotations.
Qed.

(** X1.  The truncator rewrites in place.  The output has the
    instructions of the input position by position, each one either
    unchanged or, when it is a recognised gate acting on a single qubit,
    replaced by a rotation about X, Y or Z on that same qubit without
    classical bits.  In particular the number of instructions does not
    change, and an instruction on several qubits or of unrecognised name
    is never touched. *)
Theorem truncator_in_place thr mo c :
  Forall2 kept_or_rotated (data c) (data (run thr mo c)).
Proof.
  unfold run, _apply_seqht_optimization.
  generalize (seq 0 (num_qubits c)). intros qs.
  generalize c at 1 3. induction qs as [|q qs IH]; intros oc; simpl.
  - apply Forall2_kept_refl.
  - eapply Forall2_kept_trans; [apply seqht_step_related|apply IH].
Qed.

(** With nothing to substitute, the copying loop copies. *)
Lemma replace_fold_nil q orig d : ∀ nc k,
  fst (fold_left (replace_step q orig []) d (nc, k))
  = mkQC (num_qubits nc) (num_clbits nc) (data nc ++ d).
Proof.
  induction d as [|ci d IH]; intros nc k; simpl.
  - rewrite app_nil_r. by destruct nc.
  - replace (if should_replace q orig k ci then [] !! k else None)
      with (@None op_dict) by (by destruct (should_replace q orig k ci)).
    rewrite IH. simpl. by rewrite <- app_assoc, mkCI_eta.
Qed.

Lemma replace_operations_nil c q orig : _replace_operations c q orig [] = c.
Proof.
  unfold _replace_operations. rewrite replace_fold_nil. by destruct c.
Qed.

(** X2.  When, on every qubit, the run has fewer than two operations or
    its reconstruction is empty (every coefficient is at or below the
    threshold), the truncator returns its input unchanged.  This covers
    the empty circuit and circuits with one gate per qubit. *)
Theorem truncator_identity thr mo c :
  (∀ q, q < num_qubits c ->
        length (_extract_single_qubit_operations c q) <= 1
        ∨ _optimize_single_qubit_sequence thr mo
            (_extract_single_qubit_operations c q) = []) ->
  run thr mo c = c.
Proof.
  intros H. unfold run, _apply_seqht_optimization.
  assert (Hqs : ∀ q, q ∈ seq 0 (num_qubits c) -> q < num_qubits c).
  { intros q Hq%list_elem_of_In%in_seq. lia. }
  induction (seq 0 (num_qubits c)) as [|q qs IH]; [done|]. simpl.
  assert (seqht_step thr mo c c q = c) as ->.
  { unfold seqht_step. destruct (H q) as [Hl|Ho]; [apply Hqs; by left| |].
    - by replace (1 <? length (_extract_single_qubit_operations c q))%nat
        with false by (symmetry; apply Nat.ltb_ge; lia).
    - rewrite Ho. destruct (1 <? _)%nat; [|done].
      apply replace_operations_nil. }
  apply IH. intros q' Hq'. apply Hqs. by right.
Qed.

Lemma truncator_identity_witness : run 0.1 3 two_small = two_small.
Proof.
  apply truncator_identity. intros q Hq. right.
  assert (q = 0) as -> by (simpl in Hq; lia). vm_compute. reflexivity.
Defined.

(** The absolute value of a float is never below zero. *)
Lemma abs_not_below_zero x : flt (abs x) 0 = false.
Proof.
  unfold flt. rewrite FloatAxioms.ltb_spec, FloatAxioms.abs_spec.
  change (Prim2SF 0) with (S754_zero false).
  by destruct (Prim2SF x) as [[]|[]| |[] m e].
Qed.

Lemma truncate1_test thr x :
  fgt (abs (truncate1 thr x)) thr = fgt (abs x) thr.
Proof.
  unfold truncate1. destruct (flt (abs x) thr) eqn:Hx; [|done].
  unfold fgt. fold (flt thr (abs x)). rewrite (FloatOrder.flt_asym _ _ Hx).
  change (abs 0) with 0%float. fold (flt thr 0).
  destruct (flt thr 0) eqn:H0; [|done].
  pose proof (FloatOrder.flt_trans _ _ _ Hx H0) as Hc.
  by rewrite abs_not_below_zero in Hc.
Qed.

Lemma truncate1_kept thr x :
  fgt (abs x) thr = true -> truncate1 thr x = x.
Proof.
  intros H. unfold truncate1.
  by rewrite (FloatOrder.flt_asym thr (abs x) H).
Qed.

(** X3.  The truncation step does not change what is reconstructed: the
    reconstruction tests each coefficient against the threshold again, so
    on a run of two operations or more the optimised sequence is the
    reconstruction from the untruncated coefficients. *)
Theorem truncation_redundant thr mo operations :
  2 <= length operations ->
  _optimize_single_qubit_sequence thr mo operations
  = _reconstruct_from_sequency thr
      (_compute_sequency_coefficients mo operations) (length operations).
Proof.
  intros Hlen. unfold _optimize_single_qubit_sequence.
  replace (length operations <? 2)%nat with false
    by (symmetry; apply Nat.ltb_ge; lia).
  unfold _truncate_sequency_hierarchy, _reconstruct_from_sequency.
  destruct (_compute_sequency_coefficients mo operations)
    as [|[[a b] c] rest]; [done|]. simpl.
  rewrite !truncate1_test.
  destruct (fgt (abs a) thr) eqn:Ha, (fgt (abs b) thr) eqn:Hb,
    (fgt (abs c) thr) eqn:Hc;
    rewrite ?(truncate1_kept thr a Ha), ?(truncate1_kept thr b Hb),
      ?(truncate1_kept thr c Hc); reflexivity.
Qed.

Lemma truncation_redundant_witness :
  _optimize_single_qubit_sequence 0.1 3
    (_extract_single_qubit_operations three_rotations 0)
  = [OptOp (RYGate (np_pi / 2)) "ry"].
Proof.
  rewrite truncation_redundant by (vm_compute; lia).
  vm_compute. reflexivity.
Defined.

Lemma add_at_tail k v r rest :
  ∃ r', add_at k v (r :: rest) = r' :: rest.
Proof.
  destruct r as [[a b] c]. destruct k as [|[|k]]; simpl; eauto.
Qed.

Lemma coefficient_step_tail r rest op :
  ∃ r', coefficient_step (r :: rest) op = r' :: rest.
Proof.
  unfold coefficient_step.
  destruct (params (get_gate op)) as [|p0 ps]; [eauto|].
  repeat match goal with
         | |- context [if ?t then _ else _] => destruct t
         end; try apply add_at_tail; [|eauto].
  destruct ps as [|p1 [|p2 ?]]; [eauto|eauto|].
  destruct (add_at_tail 2 p1 r rest) as [r1 ->].
  destruct (add_at_tail 1 p0 r1 rest) as [r2 ->].
  apply add_at_tail.
Qed.

Lemma coefficient_fold_tail ops : ∀ r rest,
  ∃ r', fold_left coefficient_step ops (r :: rest) = r' :: rest.
Proof.
  induction ops as [|op ops IH]; intros r rest; cbn [fold_left]; [eauto|].
  destruct (coefficient_step_tail r rest op) as [r' ->]. apply IH.
Qed.

(** X4.  Only order 0 of the coefficient table is ever written: the
    table has [max_order + 1] rows, and every row after the first is
    zero, before and after truncation. *)
Theorem higher_orders_zero thr mo operations :
  (∃ r0, _compute_sequency_coefficients mo operations
         = r0 :: replicate mo (0, 0, 0)%float)
  ∧ (∃ r0, _truncate_sequency_hierarchy thr
             (_compute_sequency_coefficients mo operations)
           = r0 :: replicate mo (0, 0, 0)%float).
Proof.
  assert (H : ∃ r0, _compute_sequency_coefficients mo operations
                    = r0 :: replicate mo (0, 0, 0)%float).
  { unfold _compute_sequency_coefficients.
    rewrite Nat.add_1_r. cbn [replicate]. apply coefficient_fold_tail. }
  split; [done|]. destruct H as [[[a b] c] ->].
  unfold _truncate_sequency_hierarchy. simpl. eexists. f_equal.
  induction mo as [|mo IH]; simpl; [done|]. rewrite IH. f_equal.
  unfold truncate1. change (abs 0) with 0%float.
  by destruct (flt 0 thr).
Qed.

End SeqHTMore.

(** ** Further properties of QHRF *)

Module QHRFMore.
Import QHRFPass QHRFFacts Scenarios.

(** *** The layer builder *)

(** X5.  The layers hold the instructions of the circuit in program
    order: written back one after the other, they give the gates and
    qubits of the input, instruction by instruction. *)
Theorem layers_in_program_order c :
  emitted <$> concat (layers (_build_hierarchy c)) = strip <$> data c.
Proof. apply build_content. Qed.

(** Two entries act on a common qubit. *)
Definition shares_qubit (a b : op) : Prop :=
  ∃ x, x ∈ qubits a ∧ x ∈ qubits b.

(** Each layer but the first opens with an entry in conflict with an
    entry of the layer before it. *)
Definition conflict_chain (ls : list (list op)) : Prop :=
  ∀ k L1 L2, ls !! k = Some L1 -> ls !! S k = Some L2 ->
    ∃ o1 o2, o1 ∈ L1 ∧ head L2 = Some o2 ∧ shares_qubit o1 o2.

(** The ['index'] of the entry at position [j] of layer [k]. *)
Definition indexed (ls : list (list op)) : Prop :=
  ∀ k L j o, ls !! k = Some L -> L !! j = Some o -> index o = k * 100 + j.

Lemma conflict_chain_extend ls cur o :
  cur ≠ [] -> conflict_chain (ls ++ [cur]) ->
  conflict_chain (ls ++ [cur ++ [o]]).
Proof.
  intros Hne H k L1 L2 H1 H2.
  apply lookup_snoc_Some in H2 as [[Hk H2]|[Hk <-]].
  - apply (H k L1 L2).
    + apply lookup_snoc_Some in H1 as [[_ H1]|[? _]]; [|lia].
      by apply lookup_app_l_Some.
    + by apply lookup_app_l_Some.
  - apply lookup_snoc_Some in H1 as [[_ H1]|[? _]]; [|lia].
    destruct (H k L1 cur) as (o1 & o2 & Ho1 & Ho2 & Hs).
    + by apply lookup_app_l_Some.
    + rewrite Hk. apply list_lookup_middle. done.
    + exists o1, o2. split; [done|]. split; [|done].
      destruct cur; [done|]. done.
Qed.

Lemma conflict_chain_new ls cur o o1 :
  o1 ∈ cur -> shares_qubit o1 o -> conflict_chain (ls ++ [cur]) ->
  conflict_chain ((ls ++ [cur]) ++ [[o]]).
Proof.
  intros Ho1 Hs H k L1 L2 H1 H2.
  apply lookup_snoc_Some in H2 as [[Hk H2]|[Hk <-]].
  - apply (H k L1 L2); [|done].
    apply lookup_snoc_Some in H1 as [[_ H1]|[? _]]; [done|lia].
  - apply lookup_snoc_Some in H1 as [[_ H1]|[? _]]; [|lia].
    rewrite length_app in Hk. simpl in Hk.
    assert (k = length ls) as -> by lia.
    rewrite list_lookup_middle in H1 by done. injection H1 as <-.
    by exists o1, o.
Qed.

Lemma indexed_extend ls cur g qs :
  indexed (ls ++ [cur]) ->
  indexed (ls ++ [cur ++ [mkOp g qs (length ls * 100 + length cur)]]).
Proof.
  intros H k L j o HL Ho.
  apply lookup_snoc_Some in HL as [[Hk HL]|[Hk <-]].
  - apply (H k L j o); [by apply lookup_app_l_Some|done].
  - apply lookup_snoc_Some in Ho as [[Hj Ho]|[Hj <-]].
    + apply (H k cur j o); [|done]. rewrite Hk.
      by apply list_lookup_middle.
    + simpl. by rewrite Hk, Hj.
Qed.

Lemma indexed_new ls g qs :
  indexed ls -> indexed (ls ++ [[mkOp g qs (length ls * 100 + 0)]]).
Proof.
  intros H k L j o HL Ho.
  apply lookup_snoc_Some in HL as [[Hk HL]|[Hk <-]]; [by apply (H k L)|].
  destruct j; [|done]. injection Ho as <-. simpl. by rewrite Hk.
Qed.

Lemma indexed_init ls cur : indexed (ls ++ [cur]) -> indexed ls.
Proof.
  intros H k L j o HL Ho. apply (H k L j o); [|done].
  by apply lookup_app_l_Some.
Qed.

(** The state of the layering loop, once more. *)
Record build_inv2 (st : list (list op) * list op * gset nat) : Prop := {
  inv2_active : st.2 = ⋃ (qset <$> st.1.2);
  inv2_start : st.1.2 = [] -> st.1.1 = [];
  inv2_chain : conflict_chain (st.1.1 ++ [st.1.2]);
  inv2_index : indexed (st.1.1 ++ [st.1.2])
}.

Lemma existsb_active_true (active : gset nat) qargs :
  existsb (fun idx => bool_decide (idx ∈ active)) qargs = true ->
  ∃ x, x ∈ qargs ∧ x ∈ active.
Proof.
  intros (x & Hx & Ha)%existsb_exists. exists x.
  split; [by apply list_elem_of_In|by apply bool_decide_eq_true_1 in Ha].
Qed.

Lemma build_step_inv2 st ci : build_inv2 st -> build_inv2 (build_step st ci).
Proof.
  destruct st as [[ls cur] active], ci as [instr qargs cargs].
  intros [Ha Hs Hc Hi]. simpl in *. unfold build_step.
  destruct (existsb _ qargs) eqn:Hex.
  - apply existsb_active_true in Hex as (x & Hx & Hxa).
    rewrite Ha in Hxa. apply elem_of_union_list in Hxa as (X & HX & HxX).
    apply list_elem_of_fmap in HX as (o1 & -> & Ho1).
    destruct cur as [|o0 cur0] eqn:Hcur; [by apply elem_of_nil in Ho1|].
    rewrite <- Hcur in *. split; simpl.
    + unfold qset. simpl. set_solver.
    + done.
    + apply (conflict_chain_new ls cur _ o1); [done| |done].
      exists x. split; [|done]. unfold qset in HxX.
      by apply elem_of_list_to_set in HxX.
    + by apply indexed_new.
  - split; simpl.
    + rewrite fmap_app, union_list_app_L, Ha. unfold qset. simpl.
      set_solver.
    + by intros ?%app_nil_r_inv || (intros H; by destruct cur).
    + destruct cur as [|o0 cur0] eqn:Hcur.
      * rewrite (Hs eq_refl). intros k L1 L2 H1 H2. by destruct k.
      * rewrite <- Hcur in *. apply conflict_chain_extend; [|done].
        by rewrite Hcur.
    + by apply indexed_extend.
Qed.

Lemma build_fold_inv2 d : ∀ st,
  build_inv2 st -> build_inv2 (fold_left build_step d st).
Proof.
  induction d as [|ci d IH]; intros st H; [done|].
  simpl. by apply IH, build_step_inv2.
Qed.

Lemma build_final_inv2 c :
  conflict_chain (layers (_build_hierarchy c))
  ∧ indexed (layers (_build_hierarchy c)).
Proof.
  unfold _build_hierarchy.
  pose proof (build_fold_inv2 (data c) ([], [], ∅)) as H.
  destruct (fold_left build_step (data c) ([], [], ∅)) as [[ls cur] act].
  destruct H as [_ Hs Hc Hi].
  { split; simpl; [done|done| |].
    - intros k L1 L2 H1 H2. by destruct k.
    - intros k L j o HL Ho. destruct k; [|done].
      injection HL as <-. done. }
  simpl in *. destruct cur as [|o0 cur0]; [|done].
  rewrite (Hs eq_refl). split.
  - intros k L1 L2 H1 H2. done.
  - intros k L j o HL Ho. done.
Qed.

(** X6.  The layering is greedy: no layer is empty, and every layer but
    the first opens with an operation that shares a qubit with an
    operation of the layer before it, which is why it could not join
    that layer. *)
Theorem layers_greedy c :
  Forall (fun L => L ≠ []) (layers (_build_hierarchy c))
  ∧ ∀ k L1 L2,
      layers (_build_hierarchy c) !! k = Some L1 ->
      layers (_build_hierarchy c) !! S k = Some L2 ->
      ∃ o1 o2, o1 ∈ L1 ∧ head L2 = Some o2 ∧ shares_qubit o1 o2.
Proof.
  split.
  - apply Forall_forall. intros L HL. by apply (build_layers_disjoint c).
  - apply build_final_inv2.
Qed.

(** X7.  The entry at position [j] of layer [k] carries the index
    [100 * k + j]; the entries of a layer are therefore pairwise
    different, and [op != operation] is true exactly between entries at
    different positions. *)
Theorem layer_indices c k L :
  layers (_build_hierarchy c) !! k = Some L ->
  (∀ j o, L !! j = Some o -> index o = k * 100 + j) ∧ NoDup L.
Proof.
  intros HL. destruct (build_final_inv2 c) as [_ Hi].
  split; [intros j o; by apply Hi|].
  apply NoDup_alt. intros i j o Ho1 Ho2.
  pose proof (Hi k L i o HL Ho1). pose proof (Hi k L j o HL Ho2). lia.
Qed.

Lemma layer_indices_witness :
  (∀ j o, three_small_layer !! j = Some o -> index o = 0 * 100 + j)
  ∧ NoDup three_small_layer.
Proof. apply (layer_indices three_small 0). vm_compute. reflexivity. Defined.

(** *** The filter *)

Lemma omap_sublist {A B} (f : A -> option B) l1 l2 :
  sublist l1 l2 -> sublist (omap f l1) (omap f l2).
Proof.
  induction 1 as [|x l1 l2 _ IH|x l1 l2 _ IH]; simpl.
  - constructor.
  - destruct (f x); [by constructor|done].
  - destruct (f x); [by constructor|done].
Qed.

Lemma filter_fold_sublist thr L S : ∀ F,
  ∃ S', sublist S' S
        ∧ fold_left (filter_step thr L) S F = F ++ lookup_items L S'.
Proof.
  induction S as [|[idx c] S IH]; intros F.
  - exists []. split; [constructor|]. simpl. by rewrite app_nil_r.
  - cbn [fold_left]. unfold filter_step at 2.
    destruct (L !! idx) as [o|] eqn:Ho.
    + assert (Hkeep : ∀ F0, ∃ S', sublist S' ((idx, c) :: S)
                ∧ fold_left (filter_step thr L) S (F0 ++ [o])
                  = F0 ++ lookup_items L S').
      { intros F0. destruct (IH (F0 ++ [o])) as (S' & Hsub & ->).
        exists ((idx, c) :: S'). split; [by constructor|].
        unfold lookup_items. simpl. rewrite Ho. simpl.
        by rewrite <- app_assoc. }
      assert (Hdrop : ∃ S', sublist S' ((idx, c) :: S)
                ∧ fold_left (filter_step thr L) S F
                  = F ++ lookup_items L S').
      { destruct (IH F) as (S' & Hsub & ->). exists S'.
        split; [by constructor|done]. }
      destruct (fgt c thr); [apply Hkeep|].
      destruct (negb _); [apply Hdrop|apply Hkeep].
    + destruct (IH F) as (S' & Hsub & ->). exists S'.
      split; [by constructor|done].
Qed.

Lemma lookup_items_imap (f : op -> float) L : ∀ pre,
  lookup_items (pre ++ L) (imap (fun i o => (length pre + i, f o)) L) = L.
Proof.
  induction L as [|o L IH]; intros pre; [reflexivity|].
  rewrite imap_cons.
  rewrite (imap_ext _ (fun i x => (length (pre ++ [o]) + i, f x))).
  2:{ intros i x _. simpl. rewrite length_app. simpl. f_equal. lia. }
  specialize (IH (pre ++ [o])). rewrite <- app_assoc in IH. simpl in IH.
  unfold lookup_items in *. simpl.
  rewrite lookup_app_r by lia.
  replace (length pre + 0 - length pre) with 0 by lia. simpl.
  by f_equal.
Qed.

Lemma filter_layer_submseteq thr L : _filter_layer thr L ⊆+ L.
Proof.
  unfold _filter_layer. destruct (length L <=? 1)%nat; [done|].
  fold (items_of L).
  destruct (filter_fold_sublist thr L (sorted_reverse (items_of L)) [])
    as (S' & Hsub & ->). simpl.
  apply (omap_sublist (fun it => L !! it.1)) in Hsub.
  apply sublist_submseteq in Hsub.
  fold (lookup_items L S') in Hsub.
  fold (lookup_items L (sorted_reverse (items_of L))) in Hsub.
  assert (Hall : lookup_items L (sorted_reverse (items_of L)) ≡ₚ L).
  { unfold lookup_items. rewrite sorted_reverse_perm.
    pose proof (lookup_items_imap
                  (fun o => _calculate_operation_contribution o L) L [])
      as Heq.
    unfold lookup_items in Heq. simpl in Heq. unfold items_of.
    by rewrite Heq. }
  by rewrite Hall in Hsub.
Qed.

(** X8.  The filter only removes: its output is, as a multiset, part of
    the instructions of the input (written back without classical bits).
    It never adds, duplicates or alters a gate, and never returns more
    instructions than it was given. *)
Theorem filter_only_removes thr c :
  data (run thr c) ⊆+ strip <$> data c
  ∧ length (data (run thr c)) <= length (data c).
Proof.
  assert (H : data (run thr c) ⊆+ strip <$> data c).
  { rewrite run_data, <- build_content.
    apply fmap_submseteq.
    induction (layers (_build_hierarchy c)) as [|L ls IH]; [done|].
    rewrite fmap_cons. cbn [concat].
    apply submseteq_app; [apply filter_layer_submseteq|done]. }
  split; [done|]. apply submseteq_length in H.
  by rewrite length_fmap in H.
Qed.

Lemma filter_layer_single thr L :
  qubit_disjoint L -> L ≠ [] ->
  (∀ o, o ∈ L ->
        fgt (_calculate_operation_contribution o L) thr = false) ->
  length (_filter_layer thr L) = 1.
Proof.
  intros Hd Hne Hbelow.
  destruct (decide (length L <= 1)) as [Hlen|Hlen].
  - unfold _filter_layer.
    replace (length L <=? 1)%nat with true
      by (symmetry; by apply Nat.leb_le).
    destruct L as [|o [|o' L]]; simpl in *; (done || lia).
  - rewrite filter_layer_sorted by (done || lia).
    pose proof (sorted_reverse_perm (items_of L)) as Hp.
    destruct (sorted_reverse (items_of L)) as [|[idx c0] rest].
    { apply Permutation_length in Hp. unfold items_of in Hp.
      rewrite length_imap in Hp. simpl in Hp. lia. }
    destruct (items_of_lookup L (idx, c0)) as (o & Ho & _).
    { rewrite <- Hp. by left. }
    simpl in Ho.
    assert (above thr rest = []) as ->.
    { assert (Hall : ∀ it, it ∈ rest -> fgt it.2 thr = false).
      { intros it Hit.
        destruct (items_of_lookup L it) as (o' & Ho' & ->).
        { rewrite <- Hp. by right. }
        apply Hbelow. by eapply list_elem_of_lookup_2. }
      clear -Hall. unfold above.
      induction rest as [|it rest IH]; simpl; [done|].
      rewrite (Hall it) by left. apply IH. intros x Hx. apply Hall.
      by right. }
    unfold lookup_items. simpl. by rewrite Ho.
Qed.

(** X9.  Whatever the threshold, an operation of every layer survives:
    the output has at least as many instructions as the circuit has
    layers.  When no contribution score exceeds the threshold it has
    exactly that many, one per layer. *)
Theorem one_survivor_per_layer thr c :
  length (layers (_build_hierarchy c)) <= length (data (run thr c))
  ∧ ((∀ L o, L ∈ layers (_build_hierarchy c) -> o ∈ L ->
        fgt (_calculate_operation_contribution o L) thr = false) ->
     length (data (run thr c)) = length (layers (_build_hierarchy c))).
Proof.
  rewrite run_data, length_fmap.
  assert (Hall : Forall (fun L => qubit_disjoint L ∧ L ≠ [])
                   (layers (_build_hierarchy c))).
  { apply Forall_forall. intros L HL. by apply (build_layers_disjoint c). }
  split.
  - induction Hall as [|L ls [_ HL] _ IH]; [done|].
    rewrite fmap_cons. cbn [concat length]. rewrite length_app.
    pose proof (filter_layer_nonempty thr L HL).
    destruct (_filter_layer thr L); [done|]. simpl. lia.
  - intros Hbelow.
    induction Hall as [|L ls [Hd HL] _ IH]; [done|].
    rewrite fmap_cons. cbn [concat length]. rewrite length_app.
    rewrite filter_layer_single; [|done|done|].
    + rewrite IH; [done|]. intros L' o HL' Ho. apply Hbelow; [|done].
      by right.
    + intros o Ho. apply Hbelow; [by left|done].
Qed.

Lemma one_survivor_per_layer_witness :
  length (data (run 2.0 two_cx)) = length (layers (_build_hierarchy two_cx)).
Proof.
  apply one_survivor_per_layer. intros L o HL Ho.
  vm_compute in HL. apply list_elem_of_singleton in HL as ->.
  repeat (apply elem_of_cons in Ho as [->|Ho]);
    [..|by apply elem_of_nil in Ho]; vm_compute; reflexivity.
Defined.

(** The score of a gate before the penalty for similar operations. *)
Definition base_contribution (g : Instruction) : float :=
  if name_in (name g) ["h"; "x"; "y"; "z"] then 1.0%float
  else if name_in (name g) ["rx"; "ry"; "rz"] then
    match params g with
    | p0 :: _ => py_min (abs p0 / np_pi) 1.0
    | [] => 0.5%float
    end
  else if name_in (name g) ["cx"; "cz"; "swap"] then 1.5%float
  else 0.8%float.

Lemma filter_all_false {A} (f : A -> bool) l :
  (∀ x, x ∈ l -> f x = false) -> List.filter f l = [].
Proof.
  induction l as [|x l IH]; intros H; simpl; [done|].
  rewrite (H x) by left. apply IH. intros y Hy. apply H. by right.
Qed.

(** X10.  In the layers the pass builds, the penalty for similar
    operations never applies to an operation that acts on a qubit: its
    contribution is the base score of its gate, whatever else is in the
    layer. *)
Theorem no_penalty_on_qubits c L o :
  L ∈ layers (_build_hierarchy c) ->
  o ∈ L ->
  qubits o ≠ [] ->
  _calculate_operation_contribution o L = base_contribution (gate o).
Proof.
  intros HL Ho Hq. destruct (build_layers_disjoint c L HL) as [Hd _].
  unfold _calculate_operation_contribution.
  rewrite filter_all_false; [done|].
  intros o' Ho'. unfold op_neqb, set_eqb.
  destruct (decide (o' = o)) as [->|Hne].
  { rewrite bool_decide_eq_false_2; [done|]. by intros H. }
  rewrite (bool_decide_eq_false_2
             ((list_to_set (qubits o') : gset nat) = list_to_set (qubits o))).
  { by rewrite andb_false_r. }
  intros Heq.
  apply list_elem_of_lookup in Ho as [i Hi].
  apply list_elem_of_lookup in Ho' as [j Hj].
  assert (Hij : j ≠ i) by (intros ->; congruence).
  pose proof (Hd j i o' o Hij Hj Hi) as Hdisj.
  unfold qset in Hdisj. rewrite Heq in Hdisj.
  destruct (qubits o) as [|x qs]; [done|]. set_solver.
Qed.

Lemma no_penalty_on_qubits_witness :
  _calculate_operation_contribution
    (mkOp cx_gate [2; 3] 1) [mkOp cx_gate [0; 1] 0; mkOp cx_gate [2; 3] 1]
  = base_contribution cx_gate.
Proof.
  apply (no_penalty_on_qubits two_cx).
  - vm_compute. left.
  - right. left.
  - done.
Defined.

(** *** The connectivity test *)

Lemma overlapping_length_from g groups : ∀ k,
  length (omap (fun '(i, existing) =>
                  if overlaps g existing then Some i else None)
            (imap (fun i e => (k + i, e)) groups))
  = length (List.filter (overlaps g) groups).
Proof.
  induction groups as [|e groups IH]; intros k; [reflexivity|].
  rewrite imap_cons.
  rewrite (imap_ext _ (fun i x => (S k + i, x)))
    by (intros i x _; simpl; f_equal; lia).
  specialize (IH (S k)).
  change (length (List.filter (overlaps g) (e :: groups)))
    with (length (if overlaps g e
                  then e :: List.filter (overlaps g) groups
                  else List.filter (overlaps g) groups)).
  destruct (overlaps g e) eqn:He.
  - transitivity (S (length (List.filter (overlaps g) groups))); [|done].
    rewrite <- IH. cbn [omap list_omap]. by rewrite He.
  - rewrite <- IH. cbn [omap list_omap]. by rewrite He.
Qed.

Lemma overlapping_indices_length g groups :
  length (overlapping_indices g groups)
  = length (List.filter (overlaps g) groups).
Proof. apply (overlapping_length_from g groups 0). Qed.

(** Each group of [gs] is disjoint from the groups before it. *)
Fixpoint fresh_each (acc gs : list (gset nat)) : Prop :=
  match gs with
  | [] => True
  | g :: gs' => Forall (fun e => g ## e) acc ∧ fresh_each (acc ++ [g]) gs'
  end.

Lemma merge_fresh gs : ∀ acc,
  fresh_each acc gs -> fold_left merge_step gs acc = acc ++ gs.
Proof.
  induction gs as [|g gs IH]; intros acc H; simpl.
  - by rewrite app_nil_r.
  - destruct H as [Hg H]. unfold merge_step at 2.
    rewrite (overlapping_indices_nil g acc Hg).
    rewrite IH by done. by rewrite <- app_assoc.
Qed.

Lemma disjoint_fresh post : ∀ pre,
  qubit_disjoint (pre ++ post) ->
  fresh_each (qset <$> pre) (qset <$> post).
Proof.
  induction post as [|o post IH]; intros pre H; [done|].
  rewrite fmap_cons. split.
  - apply Forall_fmap, Forall_lookup. intros i a Ha. simpl.
    apply (H (length pre) i).
    + apply lookup_lt_Some in Ha. lia.
    + by apply list_lookup_middle.
    + by apply lookup_app_l_Some.
  - specialize (IH (pre ++ [o])). rewrite fmap_app in IH. apply IH.
    by rewrite <- app_assoc.
Qed.

Lemma filter_overlaps_fmap (X : gset nat) (F : list op) :
  length (List.filter (overlaps X) (qset <$> F))
  = length (List.filter (fun o' => overlaps X (qset o')) F).
Proof.
  induction F as [|a F IH]; [done|]. rewrite fmap_cons. simpl.
  destruct (overlaps X (qset a)); simpl; by rewrite IH.
Qed.

(** X11.  On accepted operations that act on pairwise disjoint qubits,
    the connectivity test answers [True] exactly when the candidate
    shares a qubit with two or more of them; on an empty list it answers
    [True]. *)
Theorem breaks_connectivity_on_disjoint o F :
  qubit_disjoint F ->
  _breaks_connectivity o F
  = match F with
    | [] => true
    | _ => Nat.ltb 1 (length (List.filter
                                (fun o' => overlaps (qset o) (qset o')) F))
    end.
Proof.
  intros Hd. destruct F as [|o1 F']; [done|].
  unfold _breaks_connectivity.
  set (F := o1 :: F') in *.
  change (map (fun o0 => list_to_set (qubits o0) : gset nat) F)
    with (qset <$> F).
  rewrite (merge_fresh (qset <$> F) []) by (by apply (disjoint_fresh F [])).
  rewrite app_nil_l, overlapping_indices_length. f_equal.
  apply (filter_overlaps_fmap (qset o) F).
Qed.

Definition h_each : list op :=
  [mkOp (mkInstruction "h" []) [0] 0; mkOp (mkInstruction "h" []) [1] 1].

Lemma breaks_connectivity_on_disjoint_witness :
  _breaks_connectivity (mkOp (RXXGate 0.1) [0; 1] 2) h_each = true.
Proof.
  rewrite breaks_connectivity_on_disjoint; [vm_compute; reflexivity|].
  intros i j a b Hij Hi Hj.
  destruct i as [|[|i]], j as [|[|j]]; try done;
    injection Hi as <-; injection Hj as <-; unfold qset; simpl; set_solver.
Defined.


(** *** The merged groups are pairwise disjoint *)

Definition pairwise_disjoint (mg : list (gset nat)) : Prop :=
  ∀ i j a b, i ≠ j -> mg !! i = Some a -> mg !! j = Some b -> a ## b.

Lemma overlapping_indices_elem g groups i :
  i ∈ overlapping_indices g groups
  ↔ ∃ e, groups !! i = Some e ∧ overlaps g e = true.
Proof.
  unfold overlapping_indices. rewrite list_elem_of_omap. split.
  - intros [[k e] [Hin Hf]]. apply elem_of_lookup_imap in Hin as (k' & e' & Heq & Hl).
    injection Heq as -> ->. destruct (overlaps g e') eqn:Ho; [|done].
    injection Hf as <-. eauto.
  - intros (e & Hl & Ho). exists (i, e). split.
    + apply elem_of_lookup_imap. eauto.
    + by rewrite Ho.
Qed.

(** Increasing indices between [lo] and [hi]. *)
Fixpoint asc_between (lo hi : nat) (l : list nat) : Prop :=
  match l with
  | [] => True
  | i :: r => lo <= i < hi ∧ asc_between (S i) hi r
  end.

Lemma asc_between_mono l : ∀ lo lo' hi hi',
  lo' <= lo -> hi <= hi' -> asc_between lo hi l -> asc_between lo' hi' l.
Proof.
  induction l as [|i l IH]; intros lo lo' hi hi' H1 H2 H; [done|].
  destruct H as [Hi H]. split; [lia|]. by apply (IH (S i) (S i) hi hi').
Qed.

Lemma asc_between_Forall l : ∀ lo hi,
  asc_between lo hi l -> Forall (fun j => lo <= j < hi) l.
Proof.
  induction l as [|i l IH]; intros lo hi H; [constructor|].
  destruct H as [Hi H]. constructor; [done|].
  eapply Forall_impl; [exact (IH _ _ H)|]. simpl. intros; lia.
Qed.

Lemma overlapping_sorted_from g groups : ∀ k,
  asc_between k (k + length groups)
    (omap (fun '(i, existing) => if overlaps g existing then Some i else None)
       (imap (fun i e => (k + i, e)) groups)).
Proof.
  induction groups as [|e groups IH]; intros k; [done|].
  rewrite imap_cons.
  rewrite (imap_ext _ (fun i x => (S k + i, x)))
    by (intros i x _; simpl; f_equal; lia).
  specialize (IH (S k)).
  cbn [omap list_omap]. destruct (overlaps g e).
  - split; [simpl; lia|].
    replace (k + 0) with k by lia.
    eapply asc_between_mono; [| |exact IH]; simpl; lia.
  - eapply asc_between_mono; [| |exact IH]; simpl; lia.
Qed.

Lemma overlapping_indices_sorted g groups :
  asc_between 0 (length groups) (overlapping_indices g groups).
Proof. apply (overlapping_sorted_from g groups 0). Qed.

(** The indices the inner loop visits: decreasing, above [first], below
    [bound]. *)
Fixpoint desc_below (first bound : nat) (rest : list nat) : Prop :=
  match rest with
  | [] => True
  | i :: r => first < i < bound ∧ desc_below first i r
  end.

Lemma desc_below_mono first r : ∀ b b',
  b <= b' -> desc_below first b r -> desc_below first b' r.
Proof.
  destruct r as [|i r]; intros b b' Hle H; [done|].
  destruct H as [H1 H2]. split; [lia|done].
Qed.

Lemma desc_below_Forall first r : ∀ b,
  desc_below first b r -> Forall (fun j => j < b) r.
Proof.
  induction r as [|i r IH]; intros b H; [constructor|].
  destruct H as [H1 H2]. constructor; [lia|].
  eapply Forall_impl; [exact (IH i H2)|]. simpl. intros; lia.
Qed.

Lemma desc_below_snoc first x r : ∀ b,
  first < x -> x < b -> Forall (fun j => x < j) r ->
  desc_below first b r -> desc_below first b (r ++ [x]).
Proof.
  induction r as [|i r IH]; intros b Hx Hb Hr H; simpl.
  - split; [lia|done].
  - destruct H as [H1 H2]. inversion Hr; subst. split; [done|].
    by apply IH.
Qed.

Lemma sorted_desc_below first hi l : ∀ lo,
  first < lo -> asc_between lo hi l -> desc_below first hi (reverse l).
Proof.
  induction l as [|x l IH]; intros lo Hlo H; [done|].
  rewrite reverse_cons. destruct H as [Hx H].
  apply desc_below_snoc; [lia|lia| |apply (IH (S x)); [lia|done]].
  apply Forall_reverse. eapply Forall_impl.
  - exact (asc_between_Forall _ _ _ H).
  - simpl. intros; lia.
Qed.

Definition inner_step (first : nat) (mg : list (gset nat)) (i : nat)
    : list (gset nat) :=
  match mg !! i with
  | Some gi => delete i (alter (fun g => g ∪ gi) first mg)
  | None => mg
  end.

Definition inner_inv (first : nat) (rest : list nat) (mg : list (gset nat))
    : Prop :=
  (∀ a b x y, a ≠ first -> b ≠ first -> a ≠ b ->
     mg !! a = Some x -> mg !! b = Some y -> x ## y)
  ∧ (∀ a x y, a ≠ first -> a ∉ rest ->
       mg !! a = Some x -> mg !! first = Some y -> x ## y).

Lemma lookup_inner first i (mg : list (gset nat)) (gi : gset nat) a :
  first < i ->
  delete i (alter (fun g => g ∪ gi) first mg) !! a
  = if decide (a < i)
    then (if decide (a = first)
          then (fun g => g ∪ gi) <$> mg !! first
          else mg !! a)
    else mg !! S a.
Proof.
  intros Hlt. rewrite list_lookup_delete. destruct (decide (a < i)).
  - destruct (decide (a = first)) as [->|Hne].
    + by rewrite list_lookup_alter_eq.
    + by rewrite list_lookup_alter_ne.
  - rewrite list_lookup_alter_ne by lia. done.
Qed.

Lemma inner_fold first : ∀ rest mg,
  desc_below first (length mg) rest -> inner_inv first rest mg ->
  pairwise_disjoint (fold_left (inner_step first) rest mg).
Proof.
  induction rest as [|i rest IH]; intros mg Hd [H1 H2]; simpl.
  - intros a b x y Hab Ha Hb.
    destruct (decide (a = first)) as [->|Ha'].
    + symmetry. apply (H2 b y x); [congruence|apply not_elem_of_nil|done..].
    + destruct (decide (b = first)) as [->|Hb'].
      * apply (H2 a x y); [done|apply not_elem_of_nil|done..].
      * by apply (H1 a b).
  - destruct Hd as [Hi Hd].
    destruct (lookup_lt_is_Some_2 mg i) as [gi Hgi]; [lia|].
    pose proof (desc_below_Forall _ _ _ Hd) as Hall.
    rewrite Forall_forall in Hall.
    unfold inner_step at 2. rewrite Hgi. apply IH.
    + apply (desc_below_mono first rest i); [|done].
      rewrite length_delete.
      * rewrite length_alter. lia.
      * apply lookup_lt_is_Some. rewrite length_alter. lia.
    + assert (Hfi : mg !! i = Some gi) by done.
      split.
      * intros a b x y Ha Hb Hab.
        rewrite !lookup_inner by lia.
        destruct (decide (a = first)); [done|].
        destruct (decide (b = first)); [done|].
        destruct (decide (a < i)), (decide (b < i)); intros Hx Hy.
        -- by apply (H1 a b).
        -- apply (H1 a (S b)); [done|lia|lia|done..].
        -- apply (H1 (S a) b); [lia|done|lia|done..].
        -- apply (H1 (S a) (S b)); [lia|lia|lia|done..].
      * intros a x y Ha Hnot.
        rewrite !lookup_inner by lia.
        destruct (decide (first < i)); [|lia].
        destruct (decide (first = first)); [|done].
        destruct (mg !! first) as [y0|] eqn:Hy0; [|done].
        destruct (decide (a = first)); [done|].
        intros Hx Hy. injection Hy as <-.
        destruct (decide (a < i)).
        -- apply disjoint_union_r. split.
           ++ apply (H2 a x y0); [done| |done..].
              rewrite not_elem_of_cons. split; [lia|done].
           ++ apply (H1 a i); [done|lia|lia|done..].
        -- apply disjoint_union_r. split.
           ++ apply (H2 (S a) x y0); [lia| |done..].
              rewrite not_elem_of_cons. split; [lia|].
              intros Hin. apply Hall in Hin. lia.
           ++ apply (H1 (S a) i); [lia|lia|lia|done..].
Qed.

Lemma overlaps_false (a b : gset nat) : overlaps a b = false -> a ## b.
Proof.
  unfold overlaps. intros H. apply bool_decide_eq_false in H.
  apply dec_stable in H. set_solver.
Qed.

Lemma overlaps_true (a b : gset nat) :
  overlaps a b = true -> ∃ x, x ∈ a ∧ x ∈ b.
Proof.
  unfold overlaps. intros H. apply bool_decide_eq_true in H.
  apply set_choose_L in H as [x Hx]. exists x. set_solver.
Qed.

Lemma merge_step_disjoint mg g :
  pairwise_disjoint mg -> pairwise_disjoint (merge_step mg g).
Proof.
  intros Hpd. unfold merge_step.
  pose proof (overlapping_indices_elem g mg) as Hel.
  pose proof (overlapping_indices_sorted g mg) as Hs.
  destruct (overlapping_indices g mg) as [|first others].
  - assert (Hg : ∀ i e, mg !! i = Some e -> e ## g).
    { intros i e He. symmetry. apply overlaps_false.
      destruct (overlaps g e) eqn:Ho; [|done].
      exfalso. apply (not_elem_of_nil i). apply Hel. eauto. }
    intros i j a b Hij Ha Hb'.
    apply lookup_snoc_Some in Ha as [[_ Ha]|[Hi <-]];
      apply lookup_snoc_Some in Hb' as [[_ Hb']|[Hj <-]].
    + by apply (Hpd i j).
    + by apply (Hg i).
    + symmetry. by apply (Hg j).
    + lia.
  - destruct Hs as [Hfirst Hs].
    fold (inner_step first). apply inner_fold.
    + rewrite length_alter. apply (sorted_desc_below _ _ _ (S first)); [lia|done].
    + split.
      * intros a b x y Ha Hb' Hab.
        rewrite !list_lookup_alter_ne by done. by apply Hpd.
      * intros a x y Ha Hnot.
        rewrite list_lookup_alter_ne by done. rewrite list_lookup_alter_eq.
        destruct (mg !! first) as [y0|] eqn:Hy0; [|done].
        intros Hx Hy. injection Hy as <-.
        apply disjoint_union_r. split.
        -- by apply (Hpd a first).
        -- symmetry. apply overlaps_false.
           destruct (overlaps g x) eqn:Ho; [|done].
           exfalso. assert (Hin : a ∈ first :: others) by (apply Hel; eauto).
           apply elem_of_cons in Hin as [->|Hin]; [done|].
           apply Hnot. by apply elem_of_reverse.
Qed.

Lemma merge_fold_disjoint groups : ∀ mg,
  pairwise_disjoint mg ->
  pairwise_disjoint (fold_left merge_step groups mg).
Proof.
  induction groups as [|g groups IH]; intros mg H; [done|].
  simpl. apply IH. by apply merge_step_disjoint.
Qed.

Lemma filter_none (f : gset nat -> bool) l :
  (∀ a, a ∈ l -> f a = false) -> List.filter f l = [].
Proof.
  induction l as [|a l IH]; intros H; [done|]. simpl.
  rewrite (H a) by left. apply IH. intros a' Ha'. apply H. by right.
Qed.

Lemma one_point_overlaps (X : gset nat) x mg :
  (∀ y, y ∈ X -> y = x) -> pairwise_disjoint mg ->
  length (List.filter (overlaps X) mg) <= 1.
Proof.
  intros HX. induction mg as [|e mg IH]; intros Hpd; [simpl; lia|].
  assert (Hpd' : pairwise_disjoint mg).
  { intros i j a b Hij Ha Hb. apply (Hpd (S i) (S j)); [lia|done..]. }
  simpl. destruct (overlaps X e) eqn:He; [|by apply IH].
  rewrite filter_none; [simpl; lia|].
  intros e' Hin. apply list_elem_of_lookup in Hin as [k Hk].
  destruct (overlaps X e') eqn:He'; [|done]. exfalso.
  apply overlaps_true in He as (y & Hy & Hye).
  apply overlaps_true in He' as (y' & Hy' & Hye').
  apply HX in Hy as ->. apply HX in Hy' as ->.
  assert (Hd : e ## e') by (apply (Hpd 0 (S k)); [lia|done..]).
  set_solver.
Qed.

(** A qubit lies in one of the groups. *)
Definition covers (mg : list (gset nat)) (x : nat) : Prop :=
  ∃ e, e ∈ mg ∧ x ∈ e.

Lemma inner_step_covers first i (mg : list (gset nat)) x :
  first < i -> i < length mg ->
  covers (inner_step first mg i) x ↔ covers mg x.
Proof.
  intros Hlt Hi. unfold inner_step.
  destruct (lookup_lt_is_Some_2 mg i) as [gi Hgi]; [lia|].
  destruct (lookup_lt_is_Some_2 mg first) as [y0 Hy0]; [lia|].
  rewrite Hgi. unfold covers. split.
  - intros (e & Hin & Hx). apply list_elem_of_lookup in Hin as [a Ha].
    rewrite lookup_inner in Ha by done.
    destruct (decide (a < i)).
    + destruct (decide (a = first)) as [->|].
      * rewrite Hy0 in Ha. injection Ha as <-.
        apply elem_of_union in Hx as [Hx|Hx].
        -- exists y0. split; [by eapply list_elem_of_lookup_2|done].
        -- exists gi. split; [by eapply list_elem_of_lookup_2|done].
      * exists e. split; [by eapply list_elem_of_lookup_2|done].
    + exists e. split; [by eapply list_elem_of_lookup_2|done].
  - intros (e & Hin & Hx). apply list_elem_of_lookup in Hin as [a Ha].
    destruct (decide (a = i)) as [->|Hai];
      [|destruct (decide (a = first)) as [->|Haf]].
    + exists (y0 ∪ gi). split.
      * apply (list_elem_of_lookup_2 _ first). rewrite lookup_inner by done.
        rewrite decide_True by done. rewrite decide_True by done.
        by rewrite Hy0.
      * rewrite Hgi in Ha. injection Ha as <-. set_solver.
    + exists (y0 ∪ gi). split.
      * apply (list_elem_of_lookup_2 _ first). rewrite lookup_inner by done.
        rewrite decide_True by done. rewrite decide_True by done.
        by rewrite Hy0.
      * rewrite Hy0 in Ha. injection Ha as <-. set_solver.
    + exists e. split; [|done]. destruct (decide (a < i)).
      * apply (list_elem_of_lookup_2 _ a). rewrite lookup_inner by done.
        rewrite decide_True by done. by rewrite decide_False by done.
      * apply (list_elem_of_lookup_2 _ (a - 1)).
        rewrite lookup_inner by done. rewrite decide_False by lia.
        by replace (S (a - 1)) with a by lia.
Qed.

Lemma inner_step_length first i (mg : list (gset nat)) :
  i < length mg -> length (inner_step first mg i) = length mg - 1.
Proof.
  intros Hi. unfold inner_step.
  destruct (lookup_lt_is_Some_2 mg i) as [gi Hgi]; [lia|]. rewrite Hgi.
  rewrite length_delete.
  - by rewrite length_alter.
  - apply lookup_lt_is_Some. rewrite length_alter. lia.
Qed.

Lemma inner_fold_covers first x : ∀ rest mg,
  desc_below first (length mg) rest ->
  covers (fold_left (inner_step first) rest mg) x ↔ covers mg x.
Proof.
  induction rest as [|i rest IH]; intros mg Hd; [done|].
  destruct Hd as [Hi Hd]. simpl. rewrite IH.
  - apply inner_step_covers; lia.
  - apply (desc_below_mono first rest i); [|done].
    rewrite inner_step_length by lia. lia.
Qed.

Lemma merge_step_covers mg g x :
  covers (merge_step mg g) x ↔ covers mg x ∨ x ∈ g.
Proof.
  unfold merge_step.
  pose proof (overlapping_indices_sorted g mg) as Hs.
  destruct (overlapping_indices g mg) as [|first others].
  - unfold covers. split.
    + intros (e & Hin & Hx). apply elem_of_app in Hin as [Hin|Hin].
      * left. eauto.
      * apply list_elem_of_singleton in Hin as ->. by right.
    + intros [(e & Hin & Hx)|Hx].
      * exists e. split; [|done]. apply elem_of_app. by left.
      * exists g. split; [|done]. apply elem_of_app. right. by left.
  - destruct Hs as [Hfirst Hs]. fold (inner_step first).
    rewrite inner_fold_covers
      by (rewrite length_alter;
          apply (sorted_desc_below _ _ _ (S first)); [lia|done]).
    destruct (lookup_lt_is_Some_2 mg first) as [y0 Hy0]; [lia|].
    unfold covers. split.
    + intros (e & Hin & Hx). apply list_elem_of_lookup in Hin as [a Ha].
      destruct (decide (a = first)) as [->|Hne].
      * rewrite list_lookup_alter_eq, Hy0 in Ha. injection Ha as <-.
        apply elem_of_union in Hx as [Hx|Hx]; [|by right].
        left. exists y0. split; [by eapply list_elem_of_lookup_2|done].
      * rewrite list_lookup_alter_ne in Ha by done.
        left. exists e. split; [by eapply list_elem_of_lookup_2|done].
    + intros [(e & Hin & Hx)|Hx].
      * apply list_elem_of_lookup in Hin as [a Ha].
        destruct (decide (a = first)) as [->|Hne].
        -- exists (y0 ∪ g). split.
           ++ apply (list_elem_of_lookup_2 _ first).
              by rewrite list_lookup_alter_eq, Hy0.
           ++ rewrite Hy0 in Ha. injection Ha as <-. set_solver.
        -- exists e. split; [|done]. apply (list_elem_of_lookup_2 _ a).
           by rewrite list_lookup_alter_ne.
      * exists (y0 ∪ g). split.
        -- apply (list_elem_of_lookup_2 _ first).
           by rewrite list_lookup_alter_eq, Hy0.
        -- set_solver.
Qed.

Lemma merge_fold_covers x groups : ∀ mg,
  covers (fold_left merge_step groups mg) x ↔ covers mg x ∨ covers groups x.
Proof.
  induction groups as [|g groups IH]; intros mg; simpl.
  - split; [by left|]. intros [H|(e & Hin & _)]; [done|].
    by apply elem_of_nil in Hin.
  - rewrite IH, merge_step_covers. unfold covers. split.
    + intros [[H|H]|(e & Hin & Hx)]; [by left| |].
      * right. exists g. split; [left|done].
      * right. exists e. split; [by right|done].
    + intros [H|(e & Hin & Hx)]; [by left; left|].
      apply elem_of_cons in Hin as [->|Hin]; [by left; right|].
      right. eauto.
Qed.

(** X12.  Whatever the accepted operations are, the groups that the
    connectivity test merges form a partition of their qubits: the merged
    groups are pairwise disjoint, and a qubit lies in a merged group
    exactly when it lies in one of the groups merged. *)
Theorem merged_groups_partition (groups : list (gset nat)) :
  pairwise_disjoint (fold_left merge_step groups [])
  ∧ ∀ x, covers (fold_left merge_step groups []) x ↔ covers groups x.
Proof.
  split.
  - apply merge_fold_disjoint. intros i j a b _ Ha. by destruct i.
  - intros x. rewrite merge_fold_covers. split; [|by right].
    intros [(e & Hin & _)|H]; [|done]. by apply elem_of_nil in Hin.
Qed.

(** X13.  An operation on at most one qubit is never kept for
    connectivity once an operation has been accepted: it cannot touch two
    merged groups. *)
Theorem one_qubit_never_bridges o F :
  F ≠ [] -> length (qubits o) <= 1 -> _breaks_connectivity o F = false.
Proof.
  intros HF Hlen. destruct F as [|o1 F']; [done|].
  unfold _breaks_connectivity. cbv zeta.
  rewrite overlapping_indices_length. apply Nat.ltb_ge.
  destruct (qubits o) as [|x [|x' qs]]; [| |simpl in Hlen; lia].
  - apply (one_point_overlaps _ 0); [set_solver|].
    apply merge_fold_disjoint. intros i j a b _ Ha. by destruct i.
  - apply (one_point_overlaps _ x); [set_solver|].
    apply merge_fold_disjoint. intros i j a b _ Ha. by destruct i.
Qed.

Lemma one_qubit_never_bridges_witness :
  _breaks_connectivity (mkOp (mkInstruction "h" []) [1] 2)
    [mkOp cx_gate [0; 1] 0; mkOp cx_gate [1; 2] 1] = false.
Proof. apply one_qubit_never_bridges; [done|simpl; lia]. Defined.

End QHRFMore.

(** ** Further properties of the IonQ pass *)

Module IonQMore.
Import IonQOptimizationPass IonQFacts Scenarios.

(** *** The gate-set stage *)

(** The instruction has the qubits its rewrite rule reads: one at least
    for H, X, Y and Z, exactly two for CNOT. *)
Definition translatable (ci : CircuitInstruction) : bool :=
  if name_in (name (operation ci)) ["h"; "x"; "y"; "z"] then
    match Qiskit.qubits ci with [] => false | _ => true end
  else if String.eqb (name (operation ci)) "cx" then
    Nat.eqb (length (Qiskit.qubits ci)) 2
  else true.

Lemma gate_set_step_some oc ci :
  is_Some (gate_set_step oc ci) ↔ translatable ci = true.
Proof.
  destruct ci as [[n ps] qargs cargs].
  unfold gate_set_step, translatable, name_in. simpl.
  destruct (String.eqb_spec n "h") as [->|Hh].
  { destruct qargs; simpl; split; (done || by intros [? ?] || eauto). }
  destruct (String.eqb_spec n "x") as [->|Hx].
  { destruct qargs; simpl; split; (done || by intros [? ?] || eauto). }
  destruct (String.eqb_spec n "y") as [->|Hy].
  { destruct qargs; simpl; split; (done || by intros [? ?] || eauto). }
  destruct (String.eqb_spec n "z") as [->|Hz].
  { destruct qargs; simpl; split; (done || by intros [? ?] || eauto). }
  rewrite (bool_decide_eq_false_2 (n ∈ ["h"; "x"; "y"; "z"])).
  2:{ intros Hin. repeat (apply elem_of_cons in Hin as [?|Hin]); try done.
      by apply elem_of_nil in Hin. }
  destruct (String.eqb_spec n "cx") as [->|Hcx].
  { destruct qargs as [|a [|b [|? ?]]]; simpl; split;
      (done || by intros [? ?] || eauto). }
  destruct (bool_decide _); split; eauto.
Qed.

Lemma for_each_gate_set_some l : ∀ oc,
  is_Some (for_each gate_set_step l oc)
  ↔ Forall (fun ci => translatable ci = true) l.
Proof.
  induction l as [|ci l IH]; intros oc.
  - rewrite for_each_nil. split; [constructor|eauto].
  - rewrite for_each_cons, Forall_cons, <- (gate_set_step_some oc ci).
    destruct (gate_set_step oc ci) as [oc1|]; simpl.
    + rewrite IH. split; [by split; eauto|by intros [_ ?]].
    + split; [by intros [? ?]|by intros [[? ?] _]].
Qed.

(** X14.  The gate-set stage raises whenever an H, X, Y or Z instruction
    has no qubit or a CNOT instruction does not have exactly two.  On a
    circuit whose instructions carry no classical bits, so that every
    instruction handed to [append] with an empty list of classical bits
    takes none, these are its only failures: it returns a circuit. *)
Theorem gate_set_defined c :
  (is_Some (_optimize_gate_set c) ->
   Forall (fun ci => translatable ci = true) (data c))
  ∧ (Forall (fun ci => clbits ci = []) (data c) ->
     Forall (fun ci => translatable ci = true) (data c) ->
     is_Some (_optimize_gate_set c)).
Proof.
  split.
  - apply for_each_gate_set_some.
  - intros _. apply for_each_gate_set_some.
Qed.

Lemma gate_set_defined_witness : is_Some (_optimize_gate_set h_cx).
Proof.
  apply (proj2 (gate_set_defined h_cx)); by repeat constructor.
Defined.

(** An instruction the rewrite table passes through, without classical
    bits. *)
Definition settled (ci : CircuitInstruction) : Prop :=
  (name (operation ci) ∉ ["h"; "x"; "y"; "z"; "cx"]) ∧ clbits ci = [].

Lemma settled_rotation n a qs :
  n ∈ ["rx"; "ry"; "rz"; "rxx"] ->
  settled (mkCI (mkInstruction n [a]) qs []).
Proof.
  intros Hn. split; [|done]. simpl. intros Hin.
  repeat (apply elem_of_cons in Hn as [->|Hn]);
    [..|by apply elem_of_nil in Hn];
    repeat (apply elem_of_cons in Hin as [?|Hin]); try done;
    by apply elem_of_nil in Hin.
Qed.

Lemma gate_set_step_settled oc ci oc' :
  gate_set_step oc ci = Some oc' ->
  Forall settled (data oc) -> Forall settled (data oc').
Proof.
  destruct ci as [[n ps] qargs cargs]. unfold gate_set_step. simpl.
  intros H Hoc. revert H.
  destruct (String.eqb_spec n "h") as [->|Hh].
  { destruct qargs; simpl; [done|]. intros [= <-]. simpl.
    rewrite !Forall_app. repeat split; [done|..];
      repeat constructor; apply settled_rotation; set_solver. }
  destruct (String.eqb_spec n "x") as [->|Hx].
  { destruct qargs; simpl; [done|]. intros [= <-]. simpl.
    rewrite !Forall_app. repeat split; [done|..];
      repeat constructor; apply settled_rotation; set_solver. }
  destruct (String.eqb_spec n "y") as [->|Hy].
  { destruct qargs; simpl; [done|]. intros [= <-]. simpl.
    rewrite !Forall_app. repeat split; [done|..];
      repeat constructor; apply settled_rotation; set_solver. }
  destruct (String.eqb_spec n "z") as [->|Hz].
  { destruct qargs; simpl; [done|]. intros [= <-]. simpl.
    rewrite !Forall_app. repeat split; [done|..];
      repeat constructor; apply settled_rotation; set_solver. }
  destruct (String.eqb_spec n "cx") as [->|Hcx].
  { destruct qargs as [|a [|b [|? ?]]]; simpl; try done. intros [= <-].
    simpl. rewrite !Forall_app. repeat split; [done|..];
      repeat constructor; apply settled_rotation; set_solver. }
  assert (Hs : settled (mkCI (mkInstruction n ps) qargs [])).
  { split; [|done]. simpl. intros Hin.
    repeat (apply elem_of_cons in Hin as [?|Hin]); try done.
    by apply elem_of_nil in Hin. }
  destruct (name_in n _); intros [= <-]; simpl;
    (apply Forall_app; split; [done|]; by apply Forall_singleton).
Qed.

Lemma for_each_settled l : ∀ oc oc',
  for_each gate_set_step l oc = Some oc' ->
  Forall settled (data oc) -> Forall settled (data oc').
Proof.
  induction l as [|ci l IH]; intros oc oc'.
  - rewrite for_each_nil. by intros [= <-].
  - rewrite for_each_cons.
    destruct (gate_set_step oc ci) as [oc1|] eqn:H1; simpl; [|done].
    intros H Hoc. apply (IH oc1); [done|].
    by eapply gate_set_step_settled.
Qed.

Lemma gate_set_step_pass oc ci :
  settled ci ->
  gate_set_step oc ci
  = Some (mkQC (num_qubits oc) (num_clbits oc) (data oc ++ [ci])).
Proof.
  destruct ci as [[n ps] qargs cargs]. intros [Hn Hc]. simpl in *.
  subst cargs. unfold gate_set_step. simpl.
  destruct (String.eqb_spec n "h") as [->|Hh]; [set_solver|].
  destruct (String.eqb_spec n "x") as [->|Hx]; [set_solver|].
  destruct (String.eqb_spec n "y") as [->|Hy]; [set_solver|].
  destruct (String.eqb_spec n "z") as [->|Hz]; [set_solver|].
  destruct (String.eqb_spec n "cx") as [->|Hcx]; [set_solver|].
  by destruct (name_in n _).
Qed.

Lemma for_each_pass l : ∀ oc,
  Forall settled l ->
  for_each gate_set_step l oc
  = Some (mkQC (num_qubits oc) (num_clbits oc) (data oc ++ l)).
Proof.
  induction l as [|ci l IH]; intros oc Hl.
  - rewrite for_each_nil, app_nil_r. by destruct oc.
  - inversion Hl; subst. rewrite for_each_cons, gate_set_step_pass by done.
    simpl. rewrite IH by done. simpl. by rewrite <- app_assoc.
Qed.

(** X15.  The gate-set stage is idempotent: a second application returns
    the result of the first unchanged, and when the first raises so does
    the composition. *)
Theorem gate_set_idempotent c :
  _optimize_gate_set c ≫= _optimize_gate_set = _optimize_gate_set c.
Proof.
  destruct (_optimize_gate_set c) as [c1|] eqn:H1; [|done]. simpl.
  unfold _optimize_gate_set in *.
  pose proof (for_each_settled _ _ _ H1 (Forall_nil_2 _)) as Hs.
  apply for_each_counts in H1 as [_ Hc]. simpl in Hc.
  rewrite for_each_pass by done. simpl. destruct c1; simpl in *.
  by subst.
Qed.

(** *** The fusion stage *)

Lemma emit_list_rotations q rots :
  Forall (fun ci => is_rotation ci = true ∧ clbits ci = [])
    (emit_list q rots).
Proof.
  induction rots as [|[n a] rots IH]; simpl; [constructor|].
  destruct (name_in n ["rx"; "ry"; "rz"]) eqn:Hn; [|done].
  constructor; [|done]. unfold is_rotation. simpl. by rewrite Hn.
Qed.

Lemma flush_list_rotations D :
  Forall (fun ci => is_rotation ci = true ∧ clbits ci = []) (flush_list D).
Proof.
  induction D as [|[q rots] D IH]; [constructor|].
  rewrite flush_list_cons. apply Forall_app.
  split; [apply emit_list_rotations|done].
Qed.

Lemma fuse_total_inv l : ∀ D,
  is_Some (fuse_data l D) ->
  Forall (fun ci => is_rotation ci = true -> params (operation ci) ≠ []) l.
Proof.
  induction l as [|ci l IH]; intros D H; [constructor|].
  simpl in H. destruct (is_rotation ci) eqn:Hrot.
  - destruct (head (Qiskit.qubits ci)) as [q|]; simpl in H;
      [|by destruct H].
    destruct (params (operation ci)) as [|a ps] eqn:Hp; simpl in H;
      [by destruct H|].
    constructor; [by rewrite Hp|]. by eapply IH.
  - constructor; [by rewrite Hrot|]. apply (IH []).
    destruct (fuse_data l []); [done|]. simpl in H. by destruct H.
Qed.

(** X16.  The fusion stage raises whenever a single-qubit rx, ry or rz
    instruction has no parameter.  On a circuit whose instructions carry
    no classical bits, so that every instruction handed to [append] with
    an empty list of classical bits takes none, this is its only failure:
    it returns a circuit. *)
Theorem fusion_defined c :
  (is_Some (_optimize_rotations c) ->
   Forall (fun ci => is_rotation ci = true -> params (operation ci) ≠ [])
     (data c))
  ∧ (Forall (fun ci => clbits ci = []) (data c) ->
     Forall (fun ci => is_rotation ci = true -> params (operation ci) ≠ [])
       (data c) ->
     is_Some (_optimize_rotations c)).
Proof.
  split; [|intros _; apply optimize_rotations_total].
  rewrite optimize_rotations_data. intros H. apply (fuse_total_inv _ []).
  destruct (fuse_data (data c) []); [done|]. simpl in H. by destruct H.
Qed.

Lemma fusion_defined_witness : is_Some (_optimize_rotations two_rx).
Proof.
  apply (proj2 (fusion_defined two_rx)); by repeat constructor.
Defined.

(** The instructions that trigger a flush, in order. *)
Definition triggers (l : list CircuitInstruction) : list CircuitInstruction :=
  List.filter (fun ci => negb (is_rotation ci)) l.

Lemma triggers_rotations l :
  Forall (fun ci => is_rotation ci = true ∧ clbits ci = []) l ->
  triggers l = [].
Proof.
  induction 1 as [|ci l [Hr _] _ IH]; [done|].
  unfold triggers in *. simpl. by rewrite Hr.
Qed.

Lemma triggers_app l1 l2 : triggers (l1 ++ l2) = triggers l1 ++ triggers l2.
Proof. apply List.filter_app. Qed.

Lemma fuse_triggers l : ∀ D out,
  fuse_data l D = Some out ->
  triggers out
  = (fun ci => mkCI (operation ci) (Qiskit.qubits ci) []) <$> triggers l.
Proof.
  induction l as [|ci l IH]; intros D out H; simpl in H.
  - injection H as <-. apply triggers_rotations, flush_list_rotations.
  - unfold triggers at 2. simpl. fold (triggers l).
    destruct (is_rotation ci) eqn:Hrot; simpl.
    + destruct (head (Qiskit.qubits ci)); simpl in H; [|done].
      destruct (head (params (operation ci))); simpl in H; [|done].
      by eapply IH.
    + destruct (fuse_data l []) as [r|] eqn:Hr; simpl in H; [|done].
      injection H as <-. rewrite triggers_app.
      rewrite (triggers_rotations _ (flush_list_rotations D)).
      unfold triggers at 1. simpl. rewrite is_rotation_strip, Hrot. simpl.
      fold (triggers r). by rewrite (IH [] r Hr).
Qed.

(** X17.  Fusion leaves every other instruction alone: the instructions
    of the output that are not single-qubit rx, ry or rz are those of the
    input, in the same order, with the same gate and qubits (and without
    classical bits). *)
Theorem fusion_keeps_triggers c c' :
  _optimize_rotations c = Some c' ->
  triggers (data c')
  = (fun ci => mkCI (operation ci) (Qiskit.qubits ci) [])
      <$> triggers (data c).
Proof.
  rewrite optimize_rotations_data.
  destruct (fuse_data (data c) []) as [r|] eqn:Hr; simpl; [|done].
  intros [= <-]. simpl. by eapply fuse_triggers.
Qed.

Lemma fusion_keeps_triggers_witness :
  triggers
    [mkCI (RXGate (np_pi / 2)) [0] []; mkCI (RYGate (np_pi / 2)) [0] [];
     mkCI (RXGate (- np_pi / 2)) [1] []; mkCI (RXXGate (np_pi / 4)) [0; 1] []]
  = (fun ci => mkCI (operation ci) (Qiskit.qubits ci) [])
      <$> triggers (data h_cx_rewritten).
Proof.
  apply (fusion_keeps_triggers h_cx_rewritten
           (mkQC 2 0 [mkCI (RXGate (np_pi / 2)) [0] [];
                      mkCI (RYGate (np_pi / 2)) [0] [];
                      mkCI (RXGate (- np_pi / 2)) [1] [];
                      mkCI (RXXGate (np_pi / 4)) [0; 1] []])).
  vm_compute. reflexivity.
Defined.

(** The number of rotations named [n] in a pending sequence. *)
Definition count_axis (n : string) (rots : list (string * float)) : nat :=
  length (List.filter (fun r => String.eqb r.1 n) rots).

Lemma totals_untouched rots : ∀ X Y Z X' Y' Z',
  fold_left
    (fun '(rx_total, ry_total, rz_total) '(gate_name, angle) =>
       if String.eqb gate_name "rx"
       then ((rx_total + angle)%float, ry_total, rz_total)
       else if String.eqb gate_name "ry"
       then (rx_total, (ry_total + angle)%float, rz_total)
       else if String.eqb gate_name "rz"
       then (rx_total, ry_total, (rz_total + angle)%float)
       else (rx_total, ry_total, rz_total))
    rots (X, Y, Z) = (X', Y', Z') ->
  (count_axis "rx" rots = 0 -> X' = X)
  ∧ (count_axis "ry" rots = 0 -> Y' = Y)
  ∧ (count_axis "rz" rots = 0 -> Z' = Z).
Proof.
  induction rots as [|[n a] rots IH]; intros X Y Z X' Y' Z' H; simpl in H.
  - by injection H as <- <- <-.
  - unfold count_axis. simpl.
    destruct (String.eqb_spec n "rx") as [->|Hx]; simpl.
    { destruct (IH _ _ _ _ _ _ H) as (_ & HY & HZ). by repeat split. }
    destruct (String.eqb_spec n "ry") as [->|Hy]; simpl.
    { destruct (IH _ _ _ _ _ _ H) as (HX & _ & HZ). by repeat split. }
    destruct (String.eqb_spec n "rz") as [->|Hz]; simpl.
    { destruct (IH _ _ _ _ _ _ H) as (HX & HY & _). by repeat split. }
    by apply IH.
Qed.

Lemma count_axes_le rots :
  count_axis "rx" rots + count_axis "ry" rots + count_axis "rz" rots
  <= length rots.
Proof.
  unfold count_axis. induction rots as [|[n a] rots IH]; simpl; [done|].
  destruct (String.eqb_spec n "rx") as [->|Hx]; simpl; [lia|].
  destruct (String.eqb_spec n "ry") as [->|Hy]; simpl; [lia|].
  destruct (String.eqb_spec n "rz") as [->|Hz]; simpl; lia.
Qed.

Lemma zero_not_above : fgt (abs 0) 1e-10 = false.
Proof. vm_compute. reflexivity. Qed.

(** A fused sequence is no longer than the sequence it comes from. *)
Lemma optimize_length rots :
  length (_optimize_rotation_sequence rots) <= length rots.
Proof.
  pose proof (count_axes_le rots) as Hle.
  unfold _optimize_rotation_sequence.
  destruct (fold_left _ rots _) as [[X Y] Z] eqn:Hf.
  destruct (totals_untouched rots _ _ _ _ _ _ Hf) as (HX & HY & HZ).
  assert (Hind : ∀ (n : string) (T : float) k,
            (k = 0 -> T = 0%float) ->
            length (if fgt (abs T) 1e-10 then [(n, T)] else []) <= k).
  { intros n T [|k] HT; [|destruct (fgt (abs T) 1e-10); simpl; lia].
    by rewrite HT, zero_not_above. }
  pose proof (Hind "rx" X _ HX). pose proof (Hind "ry" Y _ HY).
  pose proof (Hind "rz" Z _ HZ).
  rewrite !length_app. lia.
Qed.

(** The rotations waiting in the dictionary. *)
Definition pending (D : rotation_dict) : nat :=
  sum_list (length <$> D.*2).

Lemma pending_cons k l D : pending ((k, l) :: D) = length l + pending D.
Proof. done. Qed.

Lemma pending_append D q r : pending (dict_append D q r) = S (pending D).
Proof.
  induction D as [|[k l] D IH]; [done|]. cbn [dict_append].
  destruct (Nat.eqb k q); rewrite !pending_cons.
  - rewrite length_app. simpl. lia.
  - rewrite IH. lia.
Qed.

Lemma emit_list_length q rots : length (emit_list q rots) <= length rots.
Proof.
  induction rots as [|[n a] rots IH]; simpl; [done|].
  destruct (name_in n _); simpl; lia.
Qed.

Lemma flush_list_length D : length (flush_list D) <= pending D.
Proof.
  induction D as [|[q rots] D IH]; [done|].
  rewrite flush_list_cons, length_app, pending_cons.
  pose proof (emit_list_length q (_optimize_rotation_sequence rots)).
  pose proof (optimize_length rots). lia.
Qed.

Lemma fuse_length l : ∀ D out,
  fuse_data l D = Some out -> length out <= pending D + length l.
Proof.
  induction l as [|ci l IH]; intros D out H; simpl in H.
  - injection H as <-. pose proof (flush_list_length D). simpl. lia.
  - destruct (is_rotation ci).
    + destruct (head (Qiskit.qubits ci)); simpl in H; [|done].
      destruct (head (params (operation ci))); simpl in H; [|done].
      apply IH in H. rewrite pending_append in H. simpl. lia.
    + destruct (fuse_data l []) as [r|] eqn:Hr; simpl in H; [|done].
      injection H as <-. apply IH in Hr.
      pose proof (flush_list_length D). rewrite length_app.
      change (pending []) with 0 in Hr. simpl. lia.
Qed.

(** X18.  Fusion never lengthens a circuit: the output has at most as
    many instructions as the input. *)
Theorem fusion_never_grows c c' :
  _optimize_rotations c = Some c' -> length (data c') <= length (data c).
Proof.
  rewrite optimize_rotations_data.
  destruct (fuse_data (data c) []) as [r|] eqn:Hr; simpl; [|done].
  intros [= <-]. simpl. apply fuse_length in Hr.
  change (pending []) with 0 in Hr. lia.
Qed.

Lemma fusion_never_grows_witness :
  length [mkCI (RXGate (np_pi / 4 + np_pi / 8)) [0] []]
  <= length (data two_rx).
Proof.
  apply (fusion_never_grows two_rx
           (mkQC 1 0 [mkCI (RXGate (np_pi / 4 + np_pi / 8)) [0] []])).
  vm_compute. reflexivity.
Defined.

(** *** The whole pass *)

Definition native_or_unknown (ci : CircuitInstruction) : Prop :=
  name (operation ci) ∉ ["h"; "x"; "y"; "z"; "cx"].

Lemma fuse_native l : ∀ D out,
  Forall native_or_unknown l -> fuse_data l D = Some out ->
  Forall native_or_unknown out.
Proof.
  assert (Hflush : ∀ D, Forall native_or_unknown (flush_list D)).
  { intros D. eapply Forall_impl; [apply flush_list_rotations|].
    intros ci [Hr _]. unfold is_rotation, name_in in Hr.
    apply andb_prop in Hr as [_ Hr]. apply bool_decide_eq_true_1 in Hr.
    intros Hin.
    repeat (apply elem_of_cons in Hr as [Hr|Hr]);
      [..|by apply elem_of_nil in Hr]; rewrite Hr in Hin;
      repeat (apply elem_of_cons in Hin as [?|Hin]); try done;
      by apply elem_of_nil in Hin. }
  induction l as [|ci l IH]; intros D out Hl H; simpl in H.
  - by injection H as <-.
  - inversion Hl as [|? ? Hci Hl']; subst.
    destruct (is_rotation ci).
    + destruct (head (Qiskit.qubits ci)); simpl in H; [|done].
      destruct (head (params (operation ci))); simpl in H; [|done].
      by eapply IH.
    + destruct (fuse_data l []) as [r|] eqn:Hr; simpl in H; [|done].
      injection H as <-. apply Forall_app. split; [apply Hflush|].
      constructor; [done|]. by eapply IH.
Qed.

(** X19.  What the pass returns is in the native gate set as far as the
    rewrite table goes: no instruction of the output is named h, x, y, z
    or cx. *)
Theorem pass_output_native use_tket c c' :
  run use_tket c = Some c' ->
  ∀ ci, ci ∈ data c' -> name (operation ci) ∉ ["h"; "x"; "y"; "z"; "cx"].
Proof.
  assert (H : _apply_qiskit_optimization c = Some c' ->
              Forall native_or_unknown (data c')).
  { unfold _apply_qiskit_optimization.
    destruct (_optimize_gate_set c) as [c1|] eqn:H1; simpl; [|done].
    rewrite optimize_rotations_data.
    destruct (fuse_data (data c1) []) as [r|] eqn:Hr; simpl; [|done].
    intros [= <-]. simpl. eapply fuse_native; [|done].
    eapply Forall_impl;
      [apply (for_each_settled _ _ _ H1 (Forall_nil_2 _))|].
    by intros ci [Hn _]. }
  intros Hrun ci Hci.
  assert (Hall : Forall native_or_unknown (data c'))
    by (destruct use_tket; by apply H).
  by apply (proj1 (Forall_forall _ _) Hall).
Qed.

Lemma pass_output_native_witness :
  name (operation (mkCI (RXXGate (np_pi / 4)) [0; 1] []))
  ∉ ["h"; "x"; "y"; "z"; "cx"].
Proof.
  apply (pass_output_native true h_cx
           (mkQC 2 0 [mkCI (RXGate (np_pi / 2)) [0] [];
                      mkCI (RYGate (np_pi / 2)) [0] [];
                      mkCI (RXGate (- np_pi / 2)) [1] [];
                      mkCI (RXXGate (np_pi / 4)) [0; 1] []])).
  - vm_compute. reflexivity.
  - simpl. do 3 right. left.
Defined.

End IonQMore.

(** ** Bit counts, in general *)

Module CountMore.
Import Scenarios.

(** X20.  Every pass returns a circuit on as many qubits as its input.
    The truncator also keeps the number of classical bits; the filter and
    the translator, when it returns, always declare none. *)
Theorem bit_counts :
  (∀ thr mo c,
     num_qubits (SeqHTPass.run thr mo c) = num_qubits c
     ∧ num_clbits (SeqHTPass.run thr mo c) = num_clbits c)
  ∧ (∀ thr c,
       num_qubits (QHRFPass.run thr c) = num_qubits c
       ∧ num_clbits (QHRFPass.run thr c) = 0)
  ∧ (∀ use_tket c c',
       IonQOptimizationPass.run use_tket c = Some c' ->
       num_qubits c' = num_qubits c ∧ num_clbits c' = 0).
Proof.
  split; [|split].
  - intros thr mo c. apply SeqHTFacts.fold_counts.
  - intros thr c.
    unfold QHRFPass.run, QHRFPass._apply_qhrf_optimization,
      QHRFPass._reconstruct_from_hierarchy.
    by rewrite QHRFFacts.reconstruct_fold.
  - intros use_tket c c'. apply IonQFacts.ionq_counts.
Qed.

Lemma bit_counts_witness :
  num_qubits
    (mkQC 2 0 [mkCI (RXGate (np_pi / 2)) [0] [];
               mkCI (RYGate (np_pi / 2)) [0] [];
               mkCI (RXGate (- np_pi / 2)) [1] [];
               mkCI (RXXGate (np_pi / 4)) [0; 1] []]) = num_qubits h_cx
  ∧ num_clbits
      (mkQC 2 0 [mkCI (RXGate (np_pi / 2)) [0] [];
                 mkCI (RYGate (np_pi / 2)) [0] [];
                 mkCI (RXGate (- np_pi / 2)) [1] [];
                 mkCI (RXXGate (np_pi / 4)) [0; 1] []]) = 0.
Proof.
  apply (proj2 (proj2 bit_counts) true h_cx). vm_compute. reflexivity.
Defined.

End CountMore.
